(** * gmail-mcp-server: the mailbox client, the transmission client,
      the scheduler and the shared retry policy, embedded in Rocq.

    Sources embedded here:
    - [utils/errors.ts]       (module [Errors]): error classes, [withRetry];
    - [email/imap-client.ts]  (module [Imap]): [listEmails], [getEmail],
                              [searchEmails], [parseEmail];
    - [email/smtp-client.ts]  (module [Smtp]): [sendEmail], [replyEmail];
    - [scheduler.ts]          (module [Scheduler]): [timeToCronExpression],
                              [setupScheduler].

    Conventions.  JavaScript numbers that the code uses as counters, sizes
    and indices are integers of [Z]; an optional property ([x?: T], or a
    value that may be [undefined]) is an [option]; a promise is modelled by
    the way it settles; the console, the timers and the network are
    modelled by the traces the code leaves on them. *)

From Stdlib Require Import ZArith QArith List String Ascii Bool Lia Permutation.
From Stdlib Require Import DecimalString.
Import ListNotations.

Local Open Scope string_scope.
Local Open Scope Z_scope.

(* ================================================================== *)
(** * JavaScript built-ins used by the sources *)
(* ================================================================== *)

Module Js.

(** [!!s] for a string: every string but the empty one is truthy. *)
Definition truthy (s : string) : bool :=
  match s with
  | EmptyString => false
  | String _ _ => true
  end.

(** [!!x] for a [string | undefined]. *)
Definition truthy_opt (x : option string) : bool :=
  match x with
  | Some s => truthy s
  | None => false
  end.

(** [x || undefined] on an optional string. *)
Definition or_undefined (x : option string) : option string :=
  if truthy_opt x then x else None.

(** [x || d] on an optional string. *)
Definition or_default (x : option string) (d : string) : string :=
  match x with
  | Some s => if truthy s then s else d
  | None => d
  end.

(** [s.startsWith(p)]. *)
Definition startsWith (s p : string) : bool := String.prefix p s.

(** [x?.startsWith(p)] used as a condition: [undefined] is falsy. *)
Definition startsWith_opt (x : option string) (p : string) : bool :=
  match x with
  | Some s => startsWith s p
  | None => false
  end.

(** [s.includes(p)]: [p] occurs somewhere in [s]. *)
Fixpoint str_includes (s p : string) : bool :=
  String.prefix p s ||
  match s with
  | EmptyString => false
  | String _ s' => str_includes s' p
  end.

(** [arr.includes(x)] on an array of strings. *)
Definition includes (arr : list string) (x : string) : bool :=
  existsb (String.eqb x) arr.

(** [arr.join(sep)] on an array of strings. *)
Definition join (sep : string) (arr : list string) : string :=
  String.concat sep arr.

(** [arr.slice(start, end)] for integer arguments (ECMAScript
    Array.prototype.slice): a negative index counts from the end, both
    indices are clamped to the array, an empty range gives [[]]. *)
Definition slice {A : Type} (arr : list A) (start end_ : Z) : list A :=
  let len := Z.of_nat (List.length arr) in
  let k := if start <? 0 then Z.max (len + start) 0 else Z.min start len in
  let final := if end_ <? 0 then Z.max (len + end_) 0 else Z.min end_ len in
  firstn (Z.to_nat (final - k)) (skipn (Z.to_nat k) arr).

(** [`${n}`] for an integer [n]: its decimal digits. *)
Definition number_to_string (n : Z) : string :=
  DecimalString.NilZero.string_of_int (Z.to_int n).

(** [arr.reverse()]. *)
Definition reverse {A : Type} (arr : list A) : list A := rev arr.

(** How an awaited promise settles: it resolves, it rejects, or it never
    settles (the continuation of the [await] never runs). *)
Inductive Settled (T E : Type) : Type :=
| Resolved (v : T)
| Rejected (e : E)
| Pending.
Arguments Resolved {T E} v.
Arguments Rejected {T E} e.
Arguments Pending {T E}.

End Js.

(* ================================================================== *)
(** * utils/errors.ts *)
(* ================================================================== *)

Module Errors.
Import Js.

(** The classes of the error hierarchy; [BaseClass] is a direct instance
    of [GmailMCPError]. *)
Inductive GmailClass : Type :=
| BaseClass
| AuthenticationClass
| RateLimitClass
| ValidationClass
| NotFoundClass.

(** A thrown value: an instance of [GmailMCPError] (or of a subclass) with
    its public fields, or any other [Error] (of a library, of the
    runtime) with its message. *)
Inductive JsError : Type :=
| Gmail (cls : GmailClass) (message code : string)
        (statusCode : option Z) (retryable : bool)
| Other (message : string).

Definition error_message (e : JsError) : string :=
  match e with
  | Gmail _ m _ _ _ => m
  | Other m => m
  end.

Definition error_code (e : JsError) : option string :=
  match e with
  | Gmail _ _ c _ _ => Some c
  | Other _ => None
  end.

(** [new GmailMCPError(message, code)]: [statusCode] is left undefined and
    [retryable] takes its default [false]. *)
Definition GmailMCPError (message code : string) : JsError :=
  Gmail BaseClass message code None false.

Definition AuthenticationError (message : string) : JsError :=
  Gmail AuthenticationClass
    (message ++ ". Please check your GMAIL_CLIENT_ID, GMAIL_CLIENT_SECRET, and GMAIL_REFRESH_TOKEN in .env file.")
    "AUTH_ERROR" (Some 401) false.

Definition RateLimitError (message : string) : JsError :=
  Gmail RateLimitClass (message ++ ". Please wait before retrying.")
    "RATE_LIMIT_ERROR" (Some 429) true.

Definition ValidationError (message : string) (field : option string) : JsError :=
  Gmail ValidationClass
    (match field with
     | Some f => "Validation error in " ++ f ++ ": " ++ message
     | None => "Validation error: " ++ message
     end)
    "VALIDATION_ERROR" (Some 400) false.

Definition NotFoundError (resource : string) : JsError :=
  Gmail NotFoundClass (resource ++ " not found") "NOT_FOUND_ERROR" (Some 404) false.

(** [error instanceof RateLimitError]. *)
Definition instanceof_RateLimitError (e : JsError) : bool :=
  match e with
  | Gmail RateLimitClass _ _ _ _ => true
  | _ => false
  end.

(** [error instanceof GmailMCPError]. *)
Definition instanceof_GmailMCPError (e : JsError) : bool :=
  match e with
  | Gmail _ _ _ _ _ => true
  | Other _ => false
  end.

(** [error.retryable], read only on instances of [GmailMCPError]. *)
Definition retryable (e : JsError) : bool :=
  match e with
  | Gmail _ _ _ _ r => r
  | Other _ => false
  end.

(** How a call of [withRetry] ends. *)
Inductive Outcome (T : Type) : Type :=
| Returned (v : T)
| Threw (e : JsError)
| ThrewUndefined            (* [throw lastError!] with no error recorded *)
| NeverReturns.             (* the awaited operation never settled *)
Arguments Returned {T} v.
Arguments Threw {T} e.
Arguments ThrewUndefined {T}.
Arguments NeverReturns {T}.

(** What a call of [withRetry] did: its outcome, the durations handed to
    [setTimeout] in order, and the number of times it called [fn].  (The
    warning written to the console before a rate-limit pause is not
    recorded.) *)
Record Run (T : Type) : Type := mkRun {
  outcome : Outcome T;
  sleeps : list Z;
  calls : nat
}.
Arguments mkRun {T} _ _ _.
Arguments outcome {T} _.
Arguments sleeps {T} _.
Arguments calls {T} _.

Section WithRetry.
Context {T : Type}.

(** [fn] is called once per attempt: [fn attempt] is the way the call
    made at iteration [attempt] settles. *)
Variable fn : Z -> Settled T JsError.
Variables maxRetries delayMs : Z.

Definition throw_lastError (lastError : option JsError) : Outcome T :=
  match lastError with
  | Some e => Threw e
  | None => ThrewUndefined
  end.

(** The [for] loop of [withRetry], from iteration [attempt] on;
    [remaining] bounds the iterations still to run. *)
Fixpoint retry_loop (remaining : nat) (attempt : Z)
         (lastError : option JsError) (slept : list Z) (called : nat)
  : Run T :=
  match remaining with
  | O => mkRun (throw_lastError lastError) slept called
  | S remaining' =>
      if attempt <? maxRetries then
        match fn attempt with
        | Resolved v => mkRun (Returned v) slept (S called)
        | Pending => mkRun NeverReturns slept (S called)
        | Rejected error =>
            if instanceof_RateLimitError error && (attempt <? maxRetries - 1) then
              retry_loop remaining' (attempt + 1) (Some error)
                         (slept ++ [delayMs * 2 ^ attempt])%list (S called)
            else if instanceof_GmailMCPError error && negb (retryable error) then
              mkRun (Threw error) slept (S called)
            else if attempt =? maxRetries - 1 then
              mkRun (Threw error) slept (S called)
            else
              retry_loop remaining' (attempt + 1) (Some error)
                         (slept ++ [delayMs * (attempt + 1)])%list (S called)
        end
      else mkRun (throw_lastError lastError) slept called
  end.

(** [withRetry(fn, maxRetries, delayMs)]: the loop starts at attempt 0
    and runs at most [maxRetries] iterations. *)
Definition withRetry : Run T :=
  retry_loop (Z.to_nat maxRetries) 0 None [] O.

End WithRetry.

(** [withRetry(fn)]: [maxRetries = 3], [delayMs = 1000]. *)
Definition withRetry_default {T : Type} (fn : Z -> Settled T JsError) : Run T :=
  withRetry fn 3 1000.

(** ** The retry policy in closed form *)

(** An error that ends the loop at once wherever it is raised: a
    recognized error that is not a rate-limit error and is not marked
    retryable. *)
Definition fatal (e : JsError) : bool :=
  negb (instanceof_RateLimitError e)
  && instanceof_GmailMCPError e && negb (retryable e).

(** The pause after the failure [e] of attempt [attempt]: exponential
    for a rate-limit error, linear otherwise. *)
Definition backoff (delayMs attempt : Z) (e : JsError) : Z :=
  if instanceof_RateLimitError e
  then delayMs * 2 ^ attempt
  else delayMs * (attempt + 1).

(** The pauses after the successive failures [errs] of the attempts
    [attempt], [attempt + 1], ... *)
Fixpoint backoffs (delayMs attempt : Z) (errs : list JsError) : list Z :=
  match errs with
  | [] => []
  | e :: rest => backoff delayMs attempt e :: backoffs delayMs (attempt + 1) rest
  end.

(** The first attempts of [fn], from attempt [start] on, fail with the
    errors [errs], none of which is fatal. *)
Definition fails_with {T : Type} (fn : Z -> Settled T JsError)
           (start : Z) (errs : list JsError) : Prop :=
  forall k e, nth_error errs k = Some e ->
              fn (start + Z.of_nat k) = Rejected e /\ fatal e = false.

End Errors.

(* ================================================================== *)
(** * email/types.ts and email/imap-client.ts *)
(* ================================================================== *)

Module Imap.
Import Js Errors.

(** ** The read-side data model ([types.ts]) *)

(** [EmailAddress].  [parseEmail] copies [name] and [address] off an
    untyped value, so either may be [undefined] at run time. *)
Record EmailAddress : Type := mkAddress {
  name : option string;
  address : option string
}.

Record EmailAttachment : Type := mkAttachment {
  filename : string;
  contentType : string;
  size : Z;
  contentId : option string;
  checksum : option string
}.

Record EmailMessage : Type := mkEmail {
  uid : Z;
  messageId : option string;
  subject : option string;
  from : option EmailAddress;
  to : option (list EmailAddress);
  cc : option (list EmailAddress);
  bcc : option (list EmailAddress);
  replyTo : option (list EmailAddress);
  date : option Z;
  flags : list string;
  unread : bool;
  body_text : option string;
  body_html : option string;
  attachments : option (list EmailAttachment);
  headers : list (string * list string);
  threadId : option string
}.

(** ** What [simpleParser] hands to [parseEmail] (mailparser's
    [ParsedMail], read through [any]) *)

(** An address-like value: an array of objects or a single object. *)
Inductive AddrValue : Type :=
| AddrArray (items : list EmailAddress)
| AddrObject (o : EmailAddress).

Record ParsedAttachment : Type := mkParsedAttachment {
  att_filename : option string;
  att_contentType : option string;
  att_size : option Z;
  att_contentId : option string;
  att_checksum : option string
}.

(** A header value: a single value or an array of values. *)
Inductive HeaderValue : Type :=
| HeaderOne (v : string)
| HeaderMany (vs : list string).

Record ParsedMail : Type := mkParsed {
  p_messageId : option string;
  p_subject : option string;
  p_from : option AddrValue;
  p_to : option AddrValue;
  p_cc : option AddrValue;
  p_bcc : option AddrValue;
  p_replyTo : option AddrValue;
  p_date : option Z;
  p_text : option string;
  p_html : option string;               (* [false] is read as absent *)
  p_attachments : option (list ParsedAttachment);
  p_headers : list (string * HeaderValue);
  p_inReplyTo : option string;
  p_references : option HeaderValue
}.

Definition parseAddress (addr : option AddrValue) : option EmailAddress :=
  match addr with
  | None => None
  | Some (AddrArray items) =>
      match items with
      | a :: _ => Some (mkAddress (name a) (address a))
      | [] => None
      end
  | Some (AddrObject o) => Some (mkAddress (name o) (address o))
  end.

Definition parseAddresses (addrs : option AddrValue) : option (list EmailAddress) :=
  match addrs with
  | None => None
  | Some v =>
      let addresses := match v with
                       | AddrArray items => items
                       | AddrObject o => [o]
                       end in
      Some (map (fun a => mkAddress (name a) (address a)) addresses)
  end.

Definition parseAttachment (att : ParsedAttachment) : EmailAttachment :=
  mkAttachment
    (or_default (att_filename att) "unnamed")
    (or_default (att_contentType att) "application/octet-stream")
    (match att_size att with Some n => n | None => 0 end)
    (att_contentId att)
    (att_checksum att).

(** [parsed.inReplyTo || parsed.references?.[0]]; indexing a string
    yields its first character. *)
Definition parse_threadId (parsed : ParsedMail) : option string :=
  if truthy_opt (p_inReplyTo parsed) then p_inReplyTo parsed
  else match p_references parsed with
       | None => None
       | Some (HeaderMany vs) => nth_error vs 0
       | Some (HeaderOne v) =>
           match v with
           | EmptyString => None
           | String c _ => Some (String c EmptyString)
           end
       end.

(** The seen marker, the JavaScript literal ['\\Seen']. *)
Definition Seen : string := "\Seen".

Definition parseEmail (parsed : ParsedMail) (uid : Z) (flags : list string)
  : EmailMessage :=
  let unread := negb (includes flags Seen) in
  let attachments := option_map (map parseAttachment) (p_attachments parsed) in
  mkEmail
    uid
    (p_messageId parsed)
    (p_subject parsed)
    (parseAddress (p_from parsed))
    (parseAddresses (p_to parsed))
    (parseAddresses (p_cc parsed))
    (parseAddresses (p_bcc parsed))
    (parseAddresses (p_replyTo parsed))
    (p_date parsed)
    flags
    unread
    (or_undefined (p_text parsed))
    (or_undefined (p_html parsed))
    (match attachments with
     | Some (a :: l) => Some (a :: l)
     | _ => None
     end)
    (map (fun kv => (fst kv, match snd kv with
                             | HeaderMany vs => vs
                             | HeaderOne v => [v]
                             end)) (p_headers parsed))
    (parse_threadId parsed).

(** ** The mail store as one attempt sees it *)

(** A search token: a string or an array of strings. *)
Inductive Criterion : Type :=
| Token (s : string)
| Tokens (l : list string).

(** The ['attributes'] event of one fetched message. *)
Record Attributes : Type := mkAttrs {
  attrs_uid : Z;
  attrs_flags : option (list string)
}.

(** One fetched message at its ['end'] event: the attributes received
    for it (if the event was emitted) and what [simpleParser], followed
    by [parseEmail], does on the bytes received: a parsed mail, or the
    value it throws. *)
Record FetchedMessage : Type := mkFetched {
  attributes : option Attributes;
  parsed : ParsedMail + JsError
}.

(** What the fetch stream reports, in the order in which the handlers
    run to completion. *)
Inductive FetchEvent : Type :=
| MessageEnd (m : FetchedMessage)
| FetchError (message : string).

(** The answer to [imap.search]: an error, or the matching UIDs (possibly
    no array at all). *)
Inductive SearchAnswer : Type :=
| SearchFailed (message : string)
| SearchResults (results : option (list Z)).

Record Store : Type := mkStore {
  connected : bool;                          (* [this.imap && this.connected] *)
  connect : option string;                   (* the error of [connect()], if any *)
  openBox : string -> option string;         (* the error of [openBox(mailbox)] *)
  search : list Criterion -> SearchAnswer;
  fetch : list Z -> list FetchEvent
}.

(** Console output of the client. *)
Inductive ConsoleLine : Type :=
| ParseErrorLine (uid : Z) (err : JsError).  (* [Error parsing email ${uid}:] *)

(** [openMailbox]: connects when the client is not connected, then opens
    the mailbox; [None] when the promise resolves.  (Once [connect] has
    resolved [this.imap] is set, so the "not initialized" branches are
    not reachable in a sequential run.) *)
Definition openMailbox (st : Store) (mailbox : string) : option JsError :=
  match (if connected st then None else connect st) with
  | Some m => Some (GmailMCPError ("IMAP connection error: " ++ m) "IMAP_ERROR")
  | None =>
      match openBox st mailbox with
      | Some m => Some (GmailMCPError ("Failed to open mailbox: " ++ m) "IMAP_ERROR")
      | None => None
      end
  end.

(** ** [listEmails] *)

Record EmailListOptions : Type := mkListOptions {
  limit : option Z;
  offset : option Z;
  searchCriteria : option (list Criterion);
  mailbox : option string
}.

Definition get_limit (o : EmailListOptions) : Z :=
  match limit o with Some l => l | None => 50 end.
Definition get_offset (o : EmailListOptions) : Z :=
  match offset o with Some l => l | None => 0 end.
Definition get_searchCriteria (o : EmailListOptions) : list Criterion :=
  match searchCriteria o with Some c => c | None => [Token "ALL"] end.
Definition get_mailbox (o : option string) : string :=
  match o with Some m => m | None => "INBOX" end.

(** How the promise of one attempt was settled, if it was.  [resolve] is
    called with the array [emails] when [processed] reaches
    [uids.length]; [value] is the content of the array at that call,
    which is what the caller is handed when the promise resolves.  An
    ['end'] handler that completes after that call still pushes to
    [emails] and counts, and settles nothing. *)
Inductive Settlement : Type :=
| ResolvedWith (value : list EmailMessage)
| RejectedWith (e : JsError).

(** The variables shared by the handlers of one fetch. *)
Record FetchState : Type := mkFetchState {
  emails : list EmailMessage;
  processed : Z;
  settlement : option Settlement;
  console : list ConsoleLine
}.

(** Settling a promise a second time has no effect. *)
Definition settle (s : Settlement) (st : FetchState) : FetchState :=
  match settlement st with
  | Some _ => st
  | None => mkFetchState (emails st) (processed st) (Some s) (console st)
  end.

(** [processed++; if (processed === uids.length) resolve(emails);] *)
Definition count_processed (n : Z) (st : FetchState) : FetchState :=
  let st' := mkFetchState (emails st) (processed st + 1) (settlement st) (console st) in
  if processed st' =? n then settle (ResolvedWith (emails st')) st' else st'.

(** The ['end'] handler of one message, run to completion. *)
Definition on_message_end (n : Z) (m : FetchedMessage) (st : FetchState) : FetchState :=
  match attributes m with
  | None => count_processed n st
  | Some attrs =>
      let uid := attrs_uid attrs in
      let flags := match attrs_flags attrs with Some f => f | None => [] end in
      let st' :=
        match parsed m with
        | inl p =>
            mkFetchState (emails st ++ [parseEmail p uid flags])%list
                         (processed st) (settlement st) (console st)
        | inr parseErr =>
            mkFetchState (emails st) (processed st) (settlement st)
                         (console st ++ [ParseErrorLine uid parseErr])%list
        end in
      count_processed n st'
  end.

(** The ['error'] handler of the fetch. *)
Definition on_fetch_error (message : string) (st : FetchState) : FetchState :=
  settle (RejectedWith (GmailMCPError ("IMAP fetch error: " ++ message) "IMAP_ERROR")) st.

Definition fetch_step (n : Z) (st : FetchState) (ev : FetchEvent) : FetchState :=
  match ev with
  | MessageEnd m => on_message_end n m st
  | FetchError message => on_fetch_error message st
  end.

Definition run_fetch (n : Z) (events : list FetchEvent) : FetchState :=
  fold_left (fetch_step n) events (mkFetchState [] 0 None []).

(** What the caller of the promise receives: the value or the error the
    promise was settled with, or nothing when the fetch stream ends with
    the promise unsettled. *)
Definition observe (st : FetchState) : Settled (list EmailMessage) JsError :=
  match settlement st with
  | None => Pending
  | Some (ResolvedWith value) => Resolved value
  | Some (RejectedWith e) => Rejected e
  end.

(** The UIDs handed to [imap.fetch]:
    [results.reverse().slice(offset, offset + limit)]. *)
Definition selected_uids (results : list Z) (offset limit : Z) : list Z :=
  slice (reverse results) offset (offset + limit).

(** One run of the function passed to [withRetry] by [listEmails], with
    the lines it writes to the console. *)
Definition listEmails_attempt (st : Store) (options : EmailListOptions)
  : Settled (list EmailMessage) JsError * list ConsoleLine :=
  match openMailbox st (get_mailbox (mailbox options)) with
  | Some e => (Rejected e, [])
  | None =>
      match search st (get_searchCriteria options) with
      | SearchFailed m =>
          (Rejected (GmailMCPError ("IMAP search error: " ++ m) "IMAP_ERROR"), [])
      | SearchResults None => (Resolved [], [])
      | SearchResults (Some []) => (Resolved [], [])
      | SearchResults (Some results) =>
          let uids := selected_uids results (get_offset options) (get_limit options) in
          match uids with
          | [] => (Resolved [], [])
          | _ =>
              let final := run_fetch (Z.of_nat (List.length uids)) (fetch st uids) in
              (observe final, console final)
          end
      end
  end.

(** [listEmails(options)]: the attempt under [withRetry]'s defaults;
    [store attempt] is the mail store as the attempt numbered [attempt]
    finds it. *)
Definition listEmails (store : Z -> Store) (options : EmailListOptions)
  : Run (list EmailMessage) :=
  withRetry_default (fun attempt => fst (listEmails_attempt (store attempt) options)).

(** ** [searchEmails] *)

Record SearchOptions : Type := mkSearchOptions {
  so_criteria : list Criterion;
  so_mailbox : option string;
  so_limit : option Z
}.

Definition searchEmails (store : Z -> Store) (options : SearchOptions)
  : Run (list EmailMessage) :=
  listEmails store
    (mkListOptions
       (Some (match so_limit options with Some l => l | None => 50 end))
       None
       (Some (so_criteria options))
       (Some (get_mailbox (so_mailbox options)))).

(** ** [getEmail] *)

(** The promise of [getEmail] is settled by the first handler that
    settles it. *)
Definition getEmail_step (uid : Z)
           (acc : option (Settled EmailMessage JsError)) (ev : FetchEvent)
  : option (Settled EmailMessage JsError) :=
  match acc with
  | Some s => Some s
  | None =>
      match ev with
      | MessageEnd m =>
          let flags := match attributes m with
                       | Some attrs =>
                           match attrs_flags attrs with Some f => f | None => [] end
                       | None => []
                       end in
          match parsed m with
          | inl p => Some (Resolved (parseEmail p uid flags))
          | inr parseErr =>
              Some (Rejected (GmailMCPError
                                ("Error parsing email: " ++ error_message parseErr)
                                "IMAP_ERROR"))
          end
      | FetchError message =>
          if str_includes message "not found"
          then Some (Rejected (NotFoundError ("Email with UID " ++ number_to_string uid)))
          else Some (Rejected (GmailMCPError ("IMAP fetch error: " ++ message) "IMAP_ERROR"))
      end
  end.

(** One run of the function passed to [withRetry] by [getEmail]. *)
Definition getEmail_attempt (st : Store) (uid : Z) (mailbox : option string)
  : Settled EmailMessage JsError :=
  match openMailbox st (get_mailbox mailbox) with
  | Some e => Rejected e
  | None =>
      match fold_left (getEmail_step uid) (fetch st [uid]) None with
      | Some s => s
      | None => Pending
      end
  end.

Definition getEmail (store : Z -> Store) (uid : Z) (mailbox : option string)
  : Run EmailMessage :=
  withRetry_default (fun attempt => getEmail_attempt (store attempt) uid mailbox).

(** The console lines of a call of [listEmails]: those of the attempts it
    made. *)
Definition listEmails_console (store : Z -> Store) (options : EmailListOptions)
  : list ConsoleLine :=
  flat_map (fun k => snd (listEmails_attempt (store (Z.of_nat k)) options))
           (seq 0 (calls (listEmails store options))).

(** ** Vocabulary of the properties *)

(** The message the ['end'] handler adds to [emails] for a fetched
    message: none when no attributes came or when parsing threw. *)
Definition kept_one (m : FetchedMessage) : list EmailMessage :=
  match attributes m, parsed m with
  | Some attrs, inl p =>
      [parseEmail p (attrs_uid attrs)
                  (match attrs_flags attrs with Some f => f | None => [] end)]
  | _, _ => []
  end.

(** The line the ['end'] handler writes for a fetched message: one when
    attributes came and parsing threw. *)
Definition logged_one (m : FetchedMessage) : list ConsoleLine :=
  match attributes m, parsed m with
  | Some attrs, inr parseErr => [ParseErrorLine (attrs_uid attrs) parseErr]
  | _, _ => []
  end.

Definition kept (ms : list FetchedMessage) : list EmailMessage :=
  flat_map kept_one ms.

Definition logged (ms : list FetchedMessage) : list ConsoleLine :=
  flat_map logged_one ms.

(** The UID of a message that came with its attributes and parses. *)
Definition fetched_uid (m : FetchedMessage) : option Z :=
  match attributes m, parsed m with
  | Some attrs, inl _ => Some (attrs_uid attrs)
  | _, _ => None
  end.

(** The fetch delivers the messages [uids], each once, with its
    attributes and bytes that parse, in any order, and no error. *)
Definition delivers (uids : list Z) (events : list FetchEvent) : Prop :=
  exists ms, events = map MessageEnd ms
             /\ Permutation (map fetched_uid ms) (map Some uids).

(** [unread] agrees with the flags of the message. *)
Definition unread_derived (m : EmailMessage) : Prop :=
  unread m = negb (includes (flags m) Seen).

(** The batch rule as the specification words it: whatever the fetch
    reports for individual messages, the call does not fail, it returns
    a sequence of messages. *)
Definition batch_never_fails (store : Z -> Store) (options : EmailListOptions)
  : Prop :=
  exists msgs, outcome (listEmails store options) = Returned msgs.

End Imap.

(* ================================================================== *)
(** * email/smtp-client.ts *)
(* ================================================================== *)

Module Smtp.
Import Js Errors.

(** A [string | string[]] property. *)
Inductive OneOrMany : Type :=
| One (s : string)
| Many (l : list string).

(** [!!x] for a [string | string[] | undefined]: an array is truthy,
    even when empty. *)
Definition truthy_field (x : option OneOrMany) : bool :=
  match x with
  | Some (One s) => truthy s
  | Some (Many _) => true
  | None => false
  end.

(** [Array.isArray(x) ? x : [x]]. *)
Definition as_array (x : OneOrMany) : list string :=
  match x with
  | One s => [s]
  | Many l => l
  end.

(** [x ? (Array.isArray(x) ? x : [x]) : undefined]. *)
Definition optional_array (x : option OneOrMany) : option (list string) :=
  match x with
  | Some v => if truthy_field x then Some (as_array v) else None
  | None => None
  end.

Record Attachment : Type := mkAttachment {
  filename : string;
  path : option string;
  content : option string;
  contentType : option string
}.

(** [SendEmailOptions].  [to] and [subject] are declared mandatory, but
    [sendEmail] tests them at run time, so both are optional here. *)
Record SendEmailOptions : Type := mkSend {
  to : option OneOrMany;
  subject : option string;
  body : option string;
  htmlBody : option string;
  cc : option OneOrMany;
  bcc : option OneOrMany;
  replyTo : option OneOrMany;
  attachments : option (list Attachment);
  inReplyTo : option string;
  references : option OneOrMany
}.

(** The message handed to [transporter.sendMail]. *)
Record MailOptions : Type := mkMail {
  mail_from : string;
  mail_to : list string;
  mail_subject : option string;
  mail_text : option string;
  mail_html : option string;
  mail_cc : option (list string);
  mail_bcc : option (list string);
  mail_replyTo : option (list string);
  mail_inReplyTo : option string;
  mail_references : option string;
  mail_attachments : option (list Attachment)
}.

(** The [mailOptions] object built inside [sendEmail].  It is built only
    after validation, when [to] is present. *)
Definition mailOptions (user : string) (options : SendEmailOptions) : MailOptions :=
  let toArray := match to options with Some t => as_array t | None => [] end in
  let ccArray := optional_array (cc options) in
  let bccArray := optional_array (bcc options) in
  let replyToArray := optional_array (replyTo options) in
  let referencesArray := optional_array (references options) in
  mkMail user toArray (subject options) (body options) (htmlBody options)
         ccArray bccArray replyToArray (inReplyTo options)
         (option_map (join " ") referencesArray)
         (option_map (map (fun att => mkAttachment (filename att) (path att)
                                                   (content att) (contentType att)))
                     (attachments options)).

(** What [transporter.sendMail] does with a message: it reports the
    identifier of the message (possibly none), or throws; the thrown
    value carries a message when it is an [Error]. *)
Inductive Submission : Type :=
| Sent (messageId : option string)
| SendFailed (message : option string).

(** The submission channel: [transport k m] is the answer to the call
    of [sendMail] made by attempt [k] with message [m]. *)
Definition Transport : Type := Z -> MailOptions -> Submission.

(** The function passed to [withRetry] by [sendEmail]. *)
Definition send_attempt (transport : Transport) (m : MailOptions) (attempt : Z)
  : Settled string JsError :=
  match transport attempt m with
  | Sent info_messageId =>
      Resolved (or_default info_messageId "")
  | SendFailed message =>
      let errorMessage := match message with
                          | Some msg => msg
                          | None => "Unknown error"
                          end in
      Rejected (GmailMCPError ("Failed to send email: " ++ errorMessage) "SMTP_ERROR")
  end.

(** What a call of [sendEmail] or [replyEmail] did: how it ended and the
    messages it handed to the submission channel, in order. *)
Record Sending : Type := mkSending {
  result : Outcome string;
  submitted : list MailOptions
}.

Definition sendEmail (transport : Transport) (user : string)
           (options : SendEmailOptions) : Sending :=
  if negb (truthy_field (to options))
     || negb (truthy_opt (subject options))
     || (negb (truthy_opt (body options)) && negb (truthy_opt (htmlBody options)))
  then
    mkSending
      (Threw (GmailMCPError "to, subject, and body (or htmlBody) are required"
                            "VALIDATION_ERROR"))
      []
  else
    let m := mailOptions user options in
    let run := withRetry_default (send_attempt transport m) in
    mkSending (outcome run) (repeat m (calls run)).

Record ReplyEmailOptions : Type := mkReply {
  originalUid : Z;
  originalMessageId : string;
  reply_subject : string;
  reply_body : option string;
  reply_htmlBody : option string;
  reply_cc : option OneOrMany;
  reply_bcc : option OneOrMany
}.

(** The second argument of [replyEmail].  The address is read off a
    value produced by the mailbox client, where it may be undefined. *)
Record OriginalEmail : Type := mkOriginal {
  orig_from : option (option string);      (* [from?.address] *)
  orig_subject : option string;
  orig_messageId : option string;
  orig_references : option (list string)
}.

(** The [subject] computed by [replyEmail]. *)
Definition subject_of_reply (replySubject : string) (originalSubject : option string)
  : string :=
  if startsWith replySubject "Re:" || startsWith_opt originalSubject "Re:"
  then replySubject
  else "Re: " ++ or_default originalSubject replySubject.

(** [arr.filter(Boolean)] on an array of [string | undefined]. *)
Fixpoint filter_Boolean (arr : list (option string)) : list string :=
  match arr with
  | [] => []
  | Some s :: rest => if truthy s then s :: filter_Boolean rest else filter_Boolean rest
  | None :: rest => filter_Boolean rest
  end.

(** The [references] computed by [replyEmail]. *)
Definition references_of_reply (original : OriginalEmail) : option string :=
  match orig_references original with
  | Some refs =>
      Some (join " " (filter_Boolean (map Some refs ++ [orig_messageId original])%list))
  | None => orig_messageId original
  end.

(** [originalEmail.from?.address || '']. *)
Definition destination_of_reply (original : OriginalEmail) : string :=
  match orig_from original with
  | Some from_address => or_default from_address ""
  | None => ""
  end.

(** The options [replyEmail] passes to [sendEmail]. *)
Definition replyRequest (options : ReplyEmailOptions) (original : OriginalEmail)
  : SendEmailOptions :=
  mkSend (Some (One (destination_of_reply original)))
         (Some (subject_of_reply (reply_subject options) (orig_subject original)))
         (reply_body options)
         (reply_htmlBody options)
         (reply_cc options)
         (reply_bcc options)
         None
         None
         (orig_messageId original)
         (option_map One (references_of_reply original)).

Definition replyEmail (transport : Transport) (user : string)
           (options : ReplyEmailOptions) (original : OriginalEmail) : Sending :=
  if negb (truthy_opt (reply_body options)) && negb (truthy_opt (reply_htmlBody options))
  then
    mkSending
      (Threw (GmailMCPError "Either body or htmlBody must be provided" "VALIDATION_ERROR"))
      []
  else sendEmail transport user (replyRequest options original).

(** ** The prefix rule as the specification words it

    "The check is per-string": the caller-supplied subject comes back
    unchanged only when it starts with "Re:" itself, and a caller
    subject without the prefix gets "Re: " prefixed, whatever the
    subject of the original message. *)
Definition prefix_check_per_string (caller : string) (original : option string)
  : Prop :=
  (subject_of_reply caller original = caller -> startsWith caller "Re:" = true)
  /\ (startsWith caller "Re:" = false ->
      startsWith (subject_of_reply caller original) "Re: " = true).

End Smtp.

(* ================================================================== *)
(** * scheduler.ts *)
(* ================================================================== *)

Module Scheduler.
Import Js Errors.

(** A JavaScript number.  Every finite number is a rational. *)
Inductive JsNumber : Type :=
| NaN
| Infinity (negative : bool)
| Finite (q : Q).

Definition isNaN (x : JsNumber) : bool :=
  match x with
  | NaN => true
  | _ => false
  end.

(** [x < n] for an integer constant [n]; a comparison with [NaN] is
    [false]. *)
Definition lt_const (x : JsNumber) (n : Z) : bool :=
  match x with
  | NaN => false
  | Infinity negative => negative
  | Finite q => negb (Qle_bool (inject_Z n) q)
  end.

(** [x > n] for an integer constant [n]. *)
Definition gt_const (x : JsNumber) (n : Z) : bool :=
  match x with
  | NaN => false
  | Infinity negative => negb negative
  | Finite q => negb (Qle_bool q (inject_Z n))
  end.

(** [s.split(':')]. *)
Fixpoint split_colon (s : string) : list string :=
  match s with
  | EmptyString => [EmptyString]
  | String c rest =>
      if Ascii.eqb c ":"%char then EmptyString :: split_colon rest
      else match split_colon rest with
           | h :: t => String c h :: t
           | [] => [String c EmptyString]
           end
  end.

Record ScheduleConfig : Type := mkConfig {
  enabled : bool;
  times : list string;
  timezone : option string
}.

(** A registered trigger: the arguments [cron.schedule] was called
    with. *)
Record ScheduledTask : Type := mkTask {
  expression : string;
  task_timezone : string
}.

Inductive ConsoleLine : Type :=
| SchedulingDisabled
| NoTimesConfigured
| TaskRegistered (time timezone : string)
| RegistrationFailed (time : string) (error : JsError).

Section Builtins.

(** The built-ins and the library the module relies on:
    - [Number]: the conversion of a string to a number;
    - [ToString]: the conversion of a number to a string, as done by
      a template literal;
    - [trim]: [String.prototype.trim];
    - [hostTimeZone]: [Intl.DateTimeFormat().resolvedOptions().timeZone];
    - [cron_rejects]: the error [cron.schedule] throws on an
      expression and a time zone it refuses, if it refuses them. *)
Variable Number : string -> JsNumber.
Variable ToString : JsNumber -> string.
Variable trim : string -> string.
Variable hostTimeZone : option string.
Variable cron_rejects : string -> string -> option JsError.

(** The destructuring [[hours, minutes] = time.split(':').map(Number)];
    a missing second element is [undefined], for which [isNaN] holds
    as it does for [NaN]. *)
Definition hours_of (time : string) : JsNumber :=
  match split_colon time with
  | h :: _ => Number h
  | [] => NaN
  end.

Definition minutes_of (time : string) : JsNumber :=
  match split_colon time with
  | _ :: m :: _ => Number m
  | _ => NaN
  end.

Definition invalid_time_message (time : string) : string :=
  "Invalid time format: " ++ time ++ ". Expected format: HH:mm".

Definition timeToCronExpression (time : string) : string + JsError :=
  let hours := hours_of time in
  let minutes := minutes_of time in
  if isNaN hours || isNaN minutes
     || lt_const hours 0 || gt_const hours 23
     || lt_const minutes 0 || gt_const minutes 59
  then inr (Other (invalid_time_message time))
  else inl (ToString minutes ++ " " ++ ToString hours ++ " * * *").

(** [config.timezone || Intl...timeZone || 'UTC']. *)
Definition resolve_timezone (config : ScheduleConfig) : string :=
  or_default (timezone config) (or_default hostTimeZone "UTC").

(** The body of the [for] loop of [setupScheduler] for one entry: the
    [try] block registers a task, the [catch] block reports the
    error. *)
Definition register_entry (tz : string)
           (acc : list ScheduledTask * list ConsoleLine) (time : string)
  : list ScheduledTask * list ConsoleLine :=
  let (tasks, console) := acc in
  match timeToCronExpression (trim time) with
  | inr error => (tasks, console ++ [RegistrationFailed time error])%list
  | inl cronExpression =>
      match cron_rejects cronExpression tz with
      | Some error => (tasks, console ++ [RegistrationFailed time error])%list
      | None =>
          ((tasks ++ [mkTask cronExpression tz])%list,
           (console ++ [TaskRegistered (trim time) tz])%list)
      end
  end.

Definition setupScheduler (config : ScheduleConfig)
  : list ScheduledTask * list ConsoleLine :=
  if negb (enabled config) then ([], [SchedulingDisabled])
  else match times config with
       | [] => ([], [NoTimesConfigured])
       | _ => fold_left (register_entry (resolve_timezone config))
                        (times config) ([], [])
       end.

(** ** Vocabulary of the properties *)

(** The hour of the entry is outside 0-23 or its minute outside 0-59. *)
Definition out_of_range (time : string) : Prop :=
  lt_const (hours_of time) 0 = true \/ gt_const (hours_of time) 23 = true
  \/ lt_const (minutes_of time) 0 = true \/ gt_const (minutes_of time) 59 = true.

(** The hour of the entry is a number within 0-23 and its minute a number
    within 0-59. *)
Definition in_range (time : string) : Prop :=
  exists h m,
    hours_of time = Finite h /\ minutes_of time = Finite m
    /\ Qle (inject_Z 0) h /\ Qle h (inject_Z 23)
    /\ Qle (inject_Z 0) m /\ Qle m (inject_Z 59).

(** The expression of the daily trigger at the time of the entry. *)
Definition daily_at (time : string) : string :=
  ToString (minutes_of time) ++ " " ++ ToString (hours_of time) ++ " * * *".

(** The tasks one entry registers: one or none. *)
Definition entry_tasks (tz : string) (time : string) : list ScheduledTask :=
  match timeToCronExpression (trim time) with
  | inr _ => []
  | inl cronExpression =>
      match cron_rejects cronExpression tz with
      | Some _ => []
      | None => [mkTask cronExpression tz]
      end
  end.

(** The line one entry leaves on the console. *)
Definition entry_line (tz : string) (time : string) : ConsoleLine :=
  match timeToCronExpression (trim time) with
  | inr error => RegistrationFailed time error
  | inl cronExpression =>
      match cron_rejects cronExpression tz with
      | Some error => RegistrationFailed time error
      | None => TaskRegistered (trim time) tz
      end
  end.

End Builtins.

(** ** An instance of the built-ins on plain inputs

    Decimal digits convert to the integer they denote, an empty string
    converts to 0, anything else to [NaN]; integers print as decimal
    digits; [trim] removes spaces at both ends; the cron library accepts
    every expression. *)
Module Plain.

Definition is_digit (c : ascii) : bool :=
  let n := nat_of_ascii c in (48 <=? n)%nat && (n <=? 57)%nat.

Fixpoint digits_value (acc : Z) (s : string) : option Z :=
  match s with
  | EmptyString => Some acc
  | String c rest =>
      if is_digit c
      then digits_value (10 * acc + Z.of_nat (nat_of_ascii c - 48)) rest
      else None
  end.

Definition Number (s : string) : JsNumber :=
  match digits_value 0 s with
  | Some n => Finite (inject_Z n)
  | None => NaN
  end.

Definition ToString (x : JsNumber) : string :=
  match x with
  | NaN => "NaN"
  | Infinity negative => if negative then "-Infinity" else "Infinity"
  | Finite q => number_to_string (Qnum q / Zpos (Qden q))
  end.

Fixpoint trim_start (s : string) : string :=
  match s with
  | String " " rest => trim_start rest
  | _ => s
  end.

Definition reverse_string (s : string) : string :=
  string_of_list_ascii (rev (list_ascii_of_string s)).

Definition trim (s : string) : string :=
  reverse_string (trim_start (reverse_string (trim_start s))).

Definition cron_rejects (expression timezone : string) : option JsError := None.

End Plain.

End Scheduler.

(* ================================================================== *)
(** * Concrete scenarios *)
(* ================================================================== *)

Module Scenarios.
Import Js Errors.

(** An operation that is rate-limited twice and then succeeds. *)
Definition flaky (attempt : Z) : Settled string JsError :=
  if attempt <? 2 then Rejected (RateLimitError "Gmail API rate limit exceeded")
  else Resolved "done".

(** A submission channel that accepts every message. *)
Definition accepting : Smtp.Transport :=
  fun _ _ => Smtp.Sent (Some "<sent@gmail.com>").

(** A reply with a plain-text body. *)
Definition reply_hello : Smtp.ReplyEmailOptions :=
  Smtp.mkReply 7 "<b>" "Hello" (Some "Thanks.") None None None.

(** An original message with one reference. *)
Definition original_ab : Smtp.OriginalEmail :=
  Smtp.mkOriginal (Some (Some "alice@example.com")) (Some "Meeting")
                  (Some "<b>") (Some ["<a>"]).

(** An original message without a sender. *)
Definition original_no_sender : Smtp.OriginalEmail :=
  Smtp.mkOriginal None (Some "Meeting") (Some "<b>") None.

(** A request without any body. *)
Definition send_no_body : Smtp.SendEmailOptions :=
  Smtp.mkSend (Some (Smtp.One "bob@example.com")) (Some "Hi") None None
              None None None None None None.

(** A parsed mail with a subject and nothing else. *)
Definition mail_with_subject (subject : string) : Imap.ParsedMail :=
  Imap.mkParsed None (Some subject) None None None None None None None None
                None [] None None.

(** A fetched message that parses, with its attributes. *)
Definition fetched (uid : Z) (flags : list string) : Imap.FetchedMessage :=
  Imap.mkFetched (Some (Imap.mkAttrs uid (Some flags)))
                 (inl (mail_with_subject "Meeting")).

(** A mailbox whose search matches the UIDs 1 to 5 and whose fetch
    delivers every requested message, already seen. *)
Definition inbox : Imap.Store :=
  Imap.mkStore true None (fun _ => None)
               (fun _ => Imap.SearchResults (Some [1; 2; 3; 4; 5]))
               (fun uids => map (fun u => Imap.MessageEnd (fetched u [Imap.Seen])) uids).

(** The same mailbox when the fetch reports one message and then an
    error. *)
Definition lossy_inbox : Imap.Store :=
  Imap.mkStore true None (fun _ => None)
               (fun _ => Imap.SearchResults (Some [1; 2; 3; 4; 5]))
               (fun _ => [Imap.MessageEnd (fetched 4 []);
                          Imap.FetchError "Connection lost"]).

(** A mailbox whose search matches the UIDs 1 to 3 and whose fetch
    reports three messages: one that parses, one that does not, one
    without attributes. *)
Definition partial_inbox : Imap.Store :=
  Imap.mkStore true None (fun _ => None)
               (fun _ => Imap.SearchResults (Some [1; 2; 3]))
               (fun _ => [Imap.MessageEnd (fetched 3 []);
                          Imap.MessageEnd
                            (Imap.mkFetched (Some (Imap.mkAttrs 2 None))
                                            (inr (Errors.Other "Invalid MIME")));
                          Imap.MessageEnd
                            (Imap.mkFetched None (inl (mail_with_subject "Lost")))]).

(** A mailbox with one match, fetched without its attributes. *)
Definition silent_inbox : Imap.Store :=
  Imap.mkStore true None (fun _ => None)
               (fun _ => Imap.SearchResults (Some [9]))
               (fun _ => [Imap.MessageEnd
                            (Imap.mkFetched None (inl (mail_with_subject "Lost")))]).

(** [{}]: every option takes its default. *)
Definition no_options : Imap.EmailListOptions :=
  Imap.mkListOptions None None None None.

(** [{ limit: 2, offset: 1 }]. *)
Definition second_page : Imap.EmailListOptions :=
  Imap.mkListOptions (Some 2) (Some 1) None None.

(** [SCHEDULE_TIMES=25:00,15:00] in Berlin. *)
Definition schedule_25_15 : Scheduler.ScheduleConfig :=
  Scheduler.mkConfig true ["25:00"; "15:00"] (Some "Europe/Berlin").

End Scenarios.

(* ================================================================== *)
(** * email/imap-client.ts: [markAsRead] *)
(* ================================================================== *)

Module MarkRead.
Import Js Errors Imap.

(** The answer to [imap.addFlags(uids, flags, callback)]: the error the
    callback receives, if any. *)
Definition AddFlags : Type := list Z -> string -> option string.

(** One run of the function passed to [withRetry] by [markAsRead], with
    the [addFlags] commands it sends. *)
Definition markAsRead_attempt (st : Store) (addFlags : AddFlags)
           (uids : list Z) (mailbox : option string)
  : Settled unit JsError * list (list Z * string) :=
  match openMailbox st (get_mailbox mailbox) with
  | Some e => (Rejected e, [])
  | None =>
      match addFlags uids Seen with
      | Some m =>
          (Rejected (GmailMCPError ("Failed to mark as read: " ++ m) "IMAP_ERROR"),
           [(uids, Seen)])
      | None => (Resolved tt, [(uids, Seen)])
      end
  end.

(** [markAsRead(uids, mailbox)]; [addFlags attempt] is the answer of the
    store to the command of the attempt numbered [attempt]. *)
Definition markAsRead (store : Z -> Store) (addFlags : Z -> AddFlags)
           (uids : list Z) (mailbox : option string) : Run unit :=
  withRetry_default
    (fun attempt => fst (markAsRead_attempt (store attempt) (addFlags attempt)
                                            uids mailbox)).

(** The [addFlags] commands of a call of [markAsRead]: those of the
    attempts it made. *)
Definition markAsRead_commands (store : Z -> Store) (addFlags : Z -> AddFlags)
           (uids : list Z) (mailbox : option string) : list (list Z * string) :=
  flat_map (fun k => snd (markAsRead_attempt (store (Z.of_nat k))
                                             (addFlags (Z.of_nat k)) uids mailbox))
           (seq 0 (calls (markAsRead store addFlags uids mailbox))).

End MarkRead.

(* ================================================================== *)
(** * tools/reply-email.ts: [handleReplyEmail] *)
(* ================================================================== *)

Module Tools.
Import Js Errors.

(** The arguments of the tool once the schema has accepted them. *)
Record ReplyArgs : Type := mkReplyArgs {
  arg_originalUid : Z;
  arg_subject : option string;
  arg_body : option string;
  arg_htmlBody : option string;
  arg_cc : option Smtp.OneOrMany;
  arg_bcc : option Smtp.OneOrMany;
  arg_mailbox : option string
}.

(** [parsed.subject || (originalEmail.subject
       ? (originalEmail.subject.startsWith('Re:') ? originalEmail.subject
                                                  : `Re: ${originalEmail.subject}`)
       : 'Re: (no subject)')]. *)
Definition replySubject (parsed_subject original_subject : option string) : string :=
  let fallback :=
    match original_subject with
    | Some o => if truthy o
                then (if startsWith o "Re:" then o else "Re: " ++ o)
                else "Re: (no subject)"
    | None => "Re: (no subject)"
    end in
  match parsed_subject with
  | Some s => if truthy s then s else fallback
  | None => fallback
  end.

(** [headers.references] on the object built by [Object.fromEntries]: the
    last entry of that name, if there is one. *)
Fixpoint lookup_header (key : string) (headers : list (string * list string))
  : option (list string) :=
  match headers with
  | [] => None
  | (k, v) :: rest =>
      match lookup_header key rest with
      | Some v' => Some v'
      | None => if String.eqb k key then Some v else None
      end
  end.

(** The original message as [handleReplyEmail] hands it to [replyEmail];
    an array is truthy, so the references found are passed as they
    are. *)
Definition original_of (email : Imap.EmailMessage) : Smtp.OriginalEmail :=
  Smtp.mkOriginal (option_map Imap.address (Imap.from email))
                  (Imap.subject email)
                  (Imap.messageId email)
                  (lookup_header "references" (Imap.headers email)).

(** The options [handleReplyEmail] hands to [replyEmail]. *)
Definition reply_options (args : ReplyArgs) (email : Imap.EmailMessage)
  : Smtp.ReplyEmailOptions :=
  Smtp.mkReply (arg_originalUid args)
               (or_default (Imap.messageId email) "")
               (replySubject (arg_subject args) (Imap.subject email))
               (arg_body args) (arg_htmlBody args) (arg_cc args) (arg_bcc args).

(** What a call of [handleReplyEmail] did: the message identifier and the
    subject it reports, or what it throws, and the messages handed to the
    submission channel. *)
Record Handled : Type := mkHandled {
  reported : Outcome (string * string);      (* message identifier, subject *)
  handed : list Smtp.MailOptions
}.

Definition handleReplyEmail (store : Z -> Imap.Store) (transport : Smtp.Transport)
           (user : string) (args : ReplyArgs) : Handled :=
  if negb (truthy_opt (arg_body args)) && negb (truthy_opt (arg_htmlBody args))
  then mkHandled (Threw (Other "Either body or htmlBody must be provided")) []
  else
    match outcome (Imap.getEmail store (arg_originalUid args) (arg_mailbox args)) with
    | Returned originalEmail =>
        let sending := Smtp.replyEmail transport user
                                       (reply_options args originalEmail)
                                       (original_of originalEmail) in
        mkHandled
          (match Smtp.result sending with
           | Returned messageId =>
               Returned (messageId,
                         replySubject (arg_subject args) (Imap.subject originalEmail))
           | Threw e => Threw e
           | ThrewUndefined => ThrewUndefined
           | NeverReturns => NeverReturns
           end)
          (Smtp.submitted sending)
    | Threw e => mkHandled (Threw e) []
    | ThrewUndefined => mkHandled ThrewUndefined []
    | NeverReturns => mkHandled NeverReturns []
    end.

End Tools.

(* ================================================================== *)
(** * utils/formatters.ts *)
(* ================================================================== *)

(** Strings are sequences of code units; [substring] counts code units,
    as the source does. *)
Module Formatters.
Import Js Errors Imap.

(** ["\n"]. *)
Definition newline : string := String (ascii_of_nat 10) EmptyString.

(** [`${x}`] for a [string | undefined]. *)
Definition template (x : option string) : string :=
  match x with
  | Some s => s
  | None => "undefined"
  end.

(** An element of [arr.join(sep)]: [undefined] is joined as the empty
    string. *)
Definition joined (x : option string) : string :=
  match x with
  | Some s => s
  | None => ""
  end.

(** [formatAddress(addr)]; the result is [undefined] when the address has
    no name and no [address] property. *)
Definition formatAddress (addr : option EmailAddress) : option string :=
  match addr with
  | None => Some "N/A"
  | Some a =>
      if truthy_opt (name a)
      then Some (template (name a) ++ " <" ++ template (address a) ++ ">")
      else address a
  end.

Definition formatAddresses (addrs : option (list EmailAddress)) : string :=
  match addrs with
  | None => "N/A"
  | Some [] => "N/A"
  | Some l => join ", " (map (fun a => joined (formatAddress (Some a))) l)
  end.

(** [s.replace(/\n/g, ' ')]. *)
Fixpoint replace_newlines (s : string) : string :=
  match s with
  | EmptyString => EmptyString
  | String c rest =>
      String (if Ascii.eqb c (ascii_of_nat 10) then " "%char else c)
             (replace_newlines rest)
  end.

(** [text.substring(0, 100).replace(/\n/g, ' ')]. *)
Definition preview_of (text : string) : string :=
  replace_newlines (substring 0 100 text).

(** Is there a [>] in the string? *)
Fixpoint has_gt (s : string) : bool :=
  match s with
  | EmptyString => false
  | String c rest => Ascii.eqb c ">"%char || has_gt rest
  end.

(** [s.replace(/<[^>]*>/g, '')]: a [<] that is followed by a [>]
    somewhere opens a match, which ends at the first [>]; [inside] tells
    whether a match is open. *)
Fixpoint strip_from (inside : bool) (s : string) : string :=
  match s with
  | EmptyString => EmptyString
  | String c rest =>
      if inside then
        if Ascii.eqb c ">"%char then strip_from false rest else strip_from true rest
      else if Ascii.eqb c "<"%char && has_gt rest then strip_from true rest
           else String c (strip_from false rest)
  end.

Definition strip_tags (s : string) : string := strip_from false s.

(** [html.replace(/<[^>]*>/g, '').substring(0, 500)]. *)
Definition stripped_html (html : string) : string :=
  substring 0 500 (strip_tags html).

(** [c.repeat(n)] for a one-character string. *)
Fixpoint repeat_char (c : ascii) (n : nat) : string :=
  match n with
  | O => EmptyString
  | S n' => String c (repeat_char c n')
  end.

Section Dates.

(** [date.toISOString()]. *)
Variable toISOString : Z -> string.

(** The [parts] array of [formatEmailSummary]. *)
Definition summary_parts (email : EmailMessage) : list string :=
  List.concat
    [ if truthy_opt (subject email)
      then ["Subject: " ++ template (subject email)] else [];
      match from email with
      | Some a => ["From: " ++ template (formatAddress (Some a))]
      | None => []
      end;
      match to email with
      | Some (a :: l) => ["To: " ++ formatAddresses (Some (a :: l))]
      | _ => []
      end;
      match date email with
      | Some d => ["Date: " ++ toISOString d]
      | None => []
      end;
      if unread email then ["[UNREAD]"] else [];
      ["UID: " ++ number_to_string (uid email)];
      match body_text email with
      | Some text =>
          if truthy text
          then [newline ++ "Preview: " ++ preview_of text ++ "..."]
          else []
      | None => []
      end ].

Definition formatEmailSummary (email : EmailMessage) : string :=
  join newline (summary_parts email).

(** [emails.map((email, index) => `\n${index + 1}. ${formatEmailSummary(email)}`)],
    from the index [index] on. *)
Fixpoint numbered (index : Z) (emails : list EmailMessage) : list string :=
  match emails with
  | [] => []
  | email :: rest =>
      (newline ++ number_to_string (index + 1) ++ ". " ++ formatEmailSummary email)
        :: numbered (index + 1) rest
  end.

Definition formatEmailList (emails : list EmailMessage) : string :=
  match emails with
  | [] => "No emails found."
  | _ =>
      "Found " ++ number_to_string (Z.of_nat (List.length emails)) ++ " email(s):"
      ++ newline ++ join (newline ++ "---" ++ newline) (numbered 0 emails)
  end.

(** The [parts] array of [formatEmailContent]. *)
Definition content_parts (email : EmailMessage) : list string :=
  let addresses (label : string) (l : option (list EmailAddress)) :=
    match l with
    | Some (a :: r) => [label ++ formatAddresses (Some (a :: r))]
    | _ => []
    end in
  List.concat
    [ [repeat_char "="%char 60];
      if truthy_opt (subject email)
      then ["Subject: " ++ template (subject email)] else [];
      match from email with
      | Some a => ["From: " ++ template (formatAddress (Some a))]
      | None => []
      end;
      addresses "To: " (to email);
      addresses "CC: " (cc email);
      addresses "BCC: " (bcc email);
      addresses "Reply-To: " (replyTo email);
      match date email with
      | Some d => ["Date: " ++ toISOString d]
      | None => []
      end;
      ["UID: " ++ number_to_string (uid email)];
      if truthy_opt (messageId email)
      then ["Message-ID: " ++ template (messageId email)] else [];
      [repeat_char "="%char 60];
      match body_text email with
      | Some text =>
          if truthy text
          then [newline ++ "--- Plain Text Body ---" ++ newline; text]
          else []
      | None => []
      end;
      match body_html email with
      | Some html =>
          if truthy html
          then [newline ++ "--- HTML Body (stripped) ---" ++ newline;
                stripped_html html]
          else []
      | None => []
      end;
      match attachments email with
      | Some (a :: r) =>
          (newline ++ "--- Attachments ---" ++ newline)
            :: map (fun att => "- " ++ filename att ++ " (" ++ contentType att ++ ", "
                                    ++ number_to_string (size att) ++ " bytes)")
                   (a :: r)
      | _ => []
      end ].

Definition formatEmailContent (email : EmailMessage) : string :=
  join newline (content_parts email).

End Dates.

End Formatters.

(* ================================================================== *)
(** * More concrete scenarios *)
(* ================================================================== *)

Module MoreScenarios.
Import Js Errors.

(** A mailbox whose search matches the UIDs 1 to 5 and whose fetch
    reports a single message and then falls silent. *)
Definition stalled_inbox : Imap.Store :=
  Imap.mkStore true None (fun _ => None)
               (fun _ => Imap.SearchResults (Some [1; 2; 3; 4; 5]))
               (fun _ => [Imap.MessageEnd (Scenarios.fetched 5 [])]).

(** A mailbox whose fetch reports nothing at all. *)
Definition mute_inbox : Imap.Store :=
  Imap.mkStore true None (fun _ => None)
               (fun _ => Imap.SearchResults (Some [1; 2; 3]))
               (fun _ => []).

(** A mailbox whose fetch reports that the message was not found. *)
Definition missing_inbox : Imap.Store :=
  Imap.mkStore true None (fun _ => None)
               (fun _ => Imap.SearchResults (Some [1; 2; 3]))
               (fun _ => [Imap.FetchError "UID 42 not found"]).

(** A mailbox whose fetch emits a message and, while the message is
    being parsed, reports an error: the handler of the error completes
    first. *)
Definition interrupted_inbox : Imap.Store :=
  Imap.mkStore true None (fun _ => None)
               (fun _ => Imap.SearchResults (Some [42]))
               (fun _ => [Imap.FetchError "Connection lost";
                          Imap.MessageEnd (Scenarios.fetched 42 [])]).

(** A submission channel that refuses every message. *)
Definition refusing : Smtp.Transport :=
  fun _ _ => Smtp.SendFailed (Some "Connection timeout").

(** A request addressed to an empty array of recipients. *)
Definition send_to_nobody : Smtp.SendEmailOptions :=
  Smtp.mkSend (Some (Smtp.Many [])) (Some "Hi") (Some "Hello there.") None
              None None None None None None.

(** A well-formed request. *)
Definition send_hi : Smtp.SendEmailOptions :=
  Smtp.mkSend (Some (Smtp.One "bob@example.com")) (Some "Hi") (Some "Hello there.")
              None None None None None None None.

(** A store that accepts every [addFlags] command. *)
Definition flags_accepted : MarkRead.AddFlags := fun _ _ => None.

(** A reply without a subject of the caller's. *)
Definition reply_args : Tools.ReplyArgs :=
  Tools.mkReplyArgs 4 None (Some "Thanks.") None None None None.

(** A message with a sender, a subject, an identifier and a references
    header. *)
Definition threaded_mail : Imap.ParsedMail :=
  Imap.mkParsed (Some "<b>") (Some "Meeting")
                (Some (Imap.AddrObject
                         (Imap.mkAddress (Some "Alice") (Some "alice@example.com"))))
                None None None None None (Some "See you.") None None
                [("references", Imap.HeaderOne "<a>")] None (Some (Imap.HeaderOne "<a>")).

(** A parsed mail whose sender is an object that has neither a [name]
    nor an [address] property of its own: [parseAddress] reads
    [undefined] for both. *)
Definition grouped_sender_mail : Imap.ParsedMail :=
  Imap.mkParsed (Some "<b>") (Some "Meeting")
                (Some (Imap.AddrObject (Imap.mkAddress None None)))
                None None None None None (Some "See you.") None None
                [("references", Imap.HeaderOne "<a>")] None (Some (Imap.HeaderOne "<a>")).

(** A mailbox whose fetch delivers that mail for every request. *)
Definition grouped_sender_inbox : Imap.Store :=
  Imap.mkStore true None (fun _ => None)
               (fun _ => Imap.SearchResults (Some [4]))
               (fun _ => [Imap.MessageEnd
                            (Imap.mkFetched (Some (Imap.mkAttrs 4 (Some [])))
                                            (inl grouped_sender_mail))]).

End MoreScenarios.

(* ================================================================== *)
(** * Properties of the retry wrapper *)
(* ================================================================== *)

Module RetryFacts.
Import Js Errors.

Section Loop.
Context {T : Type}.
Variable fn : Z -> Settled T JsError.
Variables maxRetries delayMs : Z.

Lemma fails_with_tail start e errs :
  fails_with fn start (e :: errs) ->
  fn start = Rejected e /\ fatal e = false /\ fails_with fn (start + 1) errs.
Proof.
  intros H.
  destruct (H O e eq_refl) as [Hfn Hfatal].
  rewrite Z.add_0_r in Hfn.
  split; [exact Hfn | split; [exact Hfatal |]].
  intros k e' Hk.
  specialize (H (S k) e' Hk).
  replace (start + 1 + Z.of_nat k) with (start + Z.of_nat (S k)) by lia.
  exact H.
Qed.

(** A failure that is not fatal, before the last attempt, makes the
    loop pause for [backoff] and go on with the next attempt. *)
Lemma retry_loop_retried remaining attempt lastError slept called e :
  fn attempt = Rejected e ->
  fatal e = false ->
  attempt < maxRetries - 1 ->
  retry_loop fn maxRetries delayMs (S remaining) attempt lastError slept called
  = retry_loop fn maxRetries delayMs remaining (attempt + 1) (Some e)
               (slept ++ [backoff delayMs attempt e]) (S called).
Proof.
  intros Hfn Hfatal Hlt.
  cbn [retry_loop].
  replace (attempt <? maxRetries) with true by (symmetry; apply Z.ltb_lt; lia).
  rewrite Hfn.
  replace (attempt <? maxRetries - 1) with true by (symmetry; apply Z.ltb_lt; lia).
  replace (attempt =? maxRetries - 1) with false by (symmetry; apply Z.eqb_neq; lia).
  unfold fatal in Hfatal. unfold backoff.
  destruct (instanceof_RateLimitError e); cbn [andb negb] in *.
  - reflexivity.
  - rewrite Hfatal. reflexivity.
Qed.

(** The loop runs through a prefix of failures that are not fatal. *)
Lemma retry_loop_prefix errs :
  forall remaining attempt lastError slept called,
    fails_with fn attempt errs ->
    attempt + Z.of_nat (List.length errs) < maxRetries ->
    retry_loop fn maxRetries delayMs (List.length errs + remaining) attempt
               lastError slept called
    = retry_loop fn maxRetries delayMs remaining
                 (attempt + Z.of_nat (List.length errs))
                 (match rev errs with e :: _ => Some e | [] => lastError end)
                 (slept ++ backoffs delayMs attempt errs)
                 (List.length errs + called).
Proof.
  induction errs as [|e errs IH]; intros remaining attempt lastError slept called Hf Hlt.
  - cbn. rewrite Z.add_0_r, app_nil_r. reflexivity.
  - apply fails_with_tail in Hf. destruct Hf as (Hfn & Hfatal & Htail).
    cbn [List.length] in Hlt.
    cbn [List.length Nat.add].
    rewrite (retry_loop_retried _ _ _ _ _ e Hfn Hfatal) by lia.
    rewrite IH by (trivial; lia).
    f_equal.
    + lia.
    + cbn [rev]. destruct (rev errs); reflexivity.
    + cbn [backoffs]. rewrite <- app_assoc. reflexivity.
    + lia.
Qed.

Lemma retry_loop_resolved remaining attempt lastError slept called v :
  fn attempt = Resolved v ->
  attempt < maxRetries ->
  retry_loop fn maxRetries delayMs (S remaining) attempt lastError slept called
  = mkRun (Returned v) slept (S called).
Proof.
  intros Hfn Hlt. cbn [retry_loop].
  replace (attempt <? maxRetries) with true by (symmetry; apply Z.ltb_lt; lia).
  rewrite Hfn. reflexivity.
Qed.

Lemma retry_loop_fatal remaining attempt lastError slept called e :
  fn attempt = Rejected e ->
  fatal e = true ->
  attempt < maxRetries ->
  retry_loop fn maxRetries delayMs (S remaining) attempt lastError slept called
  = mkRun (Threw e) slept (S called).
Proof.
  intros Hfn Hfatal Hlt. cbn [retry_loop].
  replace (attempt <? maxRetries) with true by (symmetry; apply Z.ltb_lt; lia).
  rewrite Hfn. unfold fatal in Hfatal.
  destruct (instanceof_RateLimitError e); cbn [andb negb] in *; [discriminate|].
  rewrite Hfatal. reflexivity.
Qed.

Lemma retry_loop_last remaining lastError slept called e :
  fn (maxRetries - 1) = Rejected e ->
  0 < maxRetries ->
  retry_loop fn maxRetries delayMs (S remaining) (maxRetries - 1)
             lastError slept called
  = mkRun (Threw e) slept (S called).
Proof.
  intros Hfn Hpos. cbn [retry_loop].
  replace (maxRetries - 1 <? maxRetries) with true by (symmetry; apply Z.ltb_lt; lia).
  rewrite Hfn, Z.ltb_irrefl, Z.eqb_refl, andb_false_r.
  destruct (instanceof_GmailMCPError e && negb (retryable e)); reflexivity.
Qed.

(** The number of iterations granted to the loop is the number it
    needs: starting at attempt 0 with [Z.to_nat maxRetries] iterations,
    the loop entered with no iteration left is the loop whose test
    [attempt < maxRetries] fails. *)
Lemma withRetry_unfold errs :
  fails_with fn 0 errs ->
  Z.of_nat (List.length errs) < maxRetries ->
  withRetry fn maxRetries delayMs
  = retry_loop fn maxRetries delayMs
               (S (Z.to_nat maxRetries - S (List.length errs)))
               (Z.of_nat (List.length errs))
               (match rev errs with e :: _ => Some e | [] => None end)
               (backoffs delayMs 0 errs)
               (List.length errs).
Proof.
  intros Hf Hlt. unfold withRetry.
  replace (Z.to_nat maxRetries)
    with (List.length errs + S (Z.to_nat maxRetries - S (List.length errs)))%nat
    by lia.
  rewrite retry_loop_prefix by (trivial; lia).
  f_equal; try lia.
Qed.

Lemma withRetry_succeeds errs v :
  fails_with fn 0 errs ->
  Z.of_nat (List.length errs) < maxRetries ->
  fn (Z.of_nat (List.length errs)) = Resolved v ->
  withRetry fn maxRetries delayMs
  = mkRun (Returned v) (backoffs delayMs 0 errs) (S (List.length errs)).
Proof.
  intros Hf Hlt Hfn.
  rewrite (withRetry_unfold errs Hf Hlt).
  apply retry_loop_resolved; trivial.
Qed.

Lemma withRetry_fatal errs e :
  fails_with fn 0 errs ->
  Z.of_nat (List.length errs) < maxRetries ->
  fn (Z.of_nat (List.length errs)) = Rejected e ->
  fatal e = true ->
  withRetry fn maxRetries delayMs
  = mkRun (Threw e) (backoffs delayMs 0 errs) (S (List.length errs)).
Proof.
  intros Hf Hlt Hfn Hfatal.
  rewrite (withRetry_unfold errs Hf Hlt).
  apply retry_loop_fatal; trivial.
Qed.

Lemma withRetry_exhausted errs e :
  fails_with fn 0 errs ->
  Z.of_nat (List.length errs) = maxRetries - 1 ->
  fn (maxRetries - 1) = Rejected e ->
  withRetry fn maxRetries delayMs
  = mkRun (Threw e) (backoffs delayMs 0 errs) (S (List.length errs)).
Proof.
  intros Hf Hlen Hfn.
  rewrite (withRetry_unfold errs Hf) by lia.
  rewrite Hlen.
  apply retry_loop_last; trivial; lia.
Qed.

Lemma withRetry_pending errs :
  fails_with fn 0 errs ->
  Z.of_nat (List.length errs) < maxRetries ->
  fn (Z.of_nat (List.length errs)) = Pending ->
  withRetry fn maxRetries delayMs
  = mkRun NeverReturns (backoffs delayMs 0 errs) (S (List.length errs)).
Proof.
  intros Hf Hlt Hfn.
  rewrite (withRetry_unfold errs Hf Hlt).
  cbn [retry_loop].
  replace (Z.of_nat (List.length errs) <? maxRetries) with true
    by (symmetry; apply Z.ltb_lt; lia).
  rewrite Hfn. reflexivity.
Qed.

End Loop.

Lemma fails_with_nil {T : Type} (fn : Z -> Settled T JsError) start :
  fails_with fn start [].
Proof. unfold fails_with. intros [|n] e H; discriminate H. Qed.

(** Pauses after rate-limit errors only: [delayMs * 2 ^ attempt]. *)
Lemma backoffs_rate_limit delayMs errs :
  forall attempt,
    Forall (fun e => instanceof_RateLimitError e = true) errs ->
    backoffs delayMs attempt errs
    = map (fun k => delayMs * 2 ^ (attempt + Z.of_nat k)) (seq 0 (List.length errs)).
Proof.
  induction errs as [|e errs IH]; intros attempt Hall; [reflexivity|].
  inversion Hall as [|? ? He Hrest]; subst.
  cbn [backoffs List.length seq map]. unfold backoff at 1. rewrite He.
  rewrite Z.add_0_r. f_equal.
  rewrite IH by assumption.
  rewrite <- seq_shift, map_map.
  apply map_ext. intros k. do 2 f_equal. lia.
Qed.

(** Pauses after errors that are no rate-limit errors:
    [delayMs * (attempt + 1)]. *)
Lemma backoffs_linear delayMs errs :
  forall attempt,
    Forall (fun e => instanceof_RateLimitError e = false) errs ->
    backoffs delayMs attempt errs
    = map (fun k => delayMs * (attempt + Z.of_nat k + 1)) (seq 0 (List.length errs)).
Proof.
  induction errs as [|e errs IH]; intros attempt Hall; [reflexivity|].
  inversion Hall as [|? ? He Hrest]; subst.
  cbn [backoffs List.length seq map]. unfold backoff at 1. rewrite He.
  rewrite Z.add_0_r. f_equal.
  rewrite IH by assumption.
  rewrite <- seq_shift, map_map.
  apply map_ext. intros k. do 2 f_equal. lia.
Qed.

(** A returned value is the value of one of the attempts. *)
Lemma retry_loop_returned {T : Type} (fn : Z -> Settled T JsError)
      maxRetries delayMs remaining :
  forall attempt lastError slept called v,
    outcome (retry_loop fn maxRetries delayMs remaining attempt lastError slept called)
    = Returned v ->
    exists k, fn k = Resolved v.
Proof.
  induction remaining as [|remaining IH]; intros attempt lastError slept called v.
  - cbn. destruct lastError; discriminate.
  - cbn [retry_loop].
    destruct (attempt <? maxRetries).
    + destruct (fn attempt) as [w|e|] eqn:E.
      * cbn. intros H. injection H as <-. exists attempt. exact E.
      * destruct (instanceof_RateLimitError e && (attempt <? maxRetries - 1));
          [apply IH|].
        destruct (instanceof_GmailMCPError e && negb (retryable e));
          [discriminate|].
        destruct (attempt =? maxRetries - 1); [discriminate | apply IH].
      * discriminate.
    + cbn. destruct lastError; discriminate.
Qed.

Lemma withRetry_returned {T : Type} (fn : Z -> Settled T JsError)
      maxRetries delayMs v :
  outcome (withRetry fn maxRetries delayMs) = Returned v ->
  exists k, fn k = Resolved v.
Proof. apply retry_loop_returned. Qed.

(** An operation whose rejections are all fatal is called exactly once. *)
Lemma withRetry_single_attempt {T : Type} (fn : Z -> Settled T JsError)
      maxRetries delayMs :
  0 < maxRetries ->
  (forall e, fn 0 = Rejected e -> fatal e = true) ->
  withRetry fn maxRetries delayMs
  = mkRun (match fn 0 with
           | Resolved v => Returned v
           | Rejected e => Threw e
           | Pending => NeverReturns
           end) [] 1.
Proof.
  intros Hpos Hfatal.
  destruct (fn 0) as [v|e|] eqn:E.
  - apply (withRetry_succeeds fn maxRetries delayMs [] v);
      [apply fails_with_nil | exact Hpos | exact E].
  - apply (withRetry_fatal fn maxRetries delayMs [] e);
      [apply fails_with_nil | exact Hpos | exact E | apply Hfatal; reflexivity].
  - apply (withRetry_pending fn maxRetries delayMs []);
      [apply fails_with_nil | exact Hpos | exact E].
Qed.

Lemma rate_limit_not_fatal e :
  instanceof_RateLimitError e = true -> fatal e = false.
Proof. intros H. unfold fatal. rewrite H. reflexivity. Qed.

Lemma unrecognized_not_fatal e :
  instanceof_GmailMCPError e = false -> fatal e = false.
Proof. intros H. unfold fatal. rewrite H, andb_false_r. reflexivity. Qed.

Lemma fails_with_Forall {T : Type} (fn : Z -> Settled T JsError)
      (P : JsError -> Prop) errs :
  (forall e, P e -> fatal e = false) ->
  Forall P errs ->
  (forall k e, nth_error errs k = Some e -> fn (Z.of_nat k) = Rejected e) ->
  fails_with fn 0 errs.
Proof.
  intros HP Hall Hfn k e Hk. split.
  - apply Hfn. exact Hk.
  - apply HP. rewrite Forall_forall in Hall. apply Hall.
    eapply nth_error_In. exact Hk.
Qed.

(** C4: the retry wrapper.  Its defaults are 3 attempts and a base delay
    of 1000.  (1) Rate-limit failures are retried after a pause of
    [delayMs * 2 ^ attempt]; (2) in particular two rate-limit failures
    followed by a success return the success value after pauses of
    [delayMs] and [delayMs * 2]; (3) a recognized error that is not
    retryable is rethrown at once, whatever attempts are left, and the
    operation is not called again; (4) failures of an unrecognized kind
    are retried after a pause of [delayMs * (attempt + 1)]; (5) when the
    attempts are exhausted the last error is rethrown. *)
Theorem withRetry_policy :
  (forall (T : Type) (fn : Z -> Settled T JsError),
      withRetry_default fn = withRetry fn 3 1000)
  /\
  (forall (T : Type) (fn : Z -> Settled T JsError) maxRetries delayMs errs v,
      Forall (fun e => instanceof_RateLimitError e = true) errs ->
      (forall k e, nth_error errs k = Some e -> fn (Z.of_nat k) = Rejected e) ->
      Z.of_nat (List.length errs) < maxRetries ->
      fn (Z.of_nat (List.length errs)) = Resolved v ->
      withRetry fn maxRetries delayMs
      = mkRun (Returned v)
              (map (fun k => delayMs * 2 ^ Z.of_nat k) (seq 0 (List.length errs)))
              (S (List.length errs)))
  /\
  (forall (T : Type) (fn : Z -> Settled T JsError) delayMs m0 m1 v,
      fn 0 = Rejected (RateLimitError m0) ->
      fn 1 = Rejected (RateLimitError m1) ->
      fn 2 = Resolved v ->
      withRetry fn 3 delayMs = mkRun (Returned v) [delayMs; delayMs * 2] 3)
  /\
  (forall (T : Type) (fn : Z -> Settled T JsError) maxRetries delayMs errs e,
      fails_with fn 0 errs ->
      Z.of_nat (List.length errs) < maxRetries ->
      fn (Z.of_nat (List.length errs)) = Rejected e ->
      instanceof_RateLimitError e = false ->
      instanceof_GmailMCPError e = true ->
      retryable e = false ->
      withRetry fn maxRetries delayMs
      = mkRun (Threw e) (backoffs delayMs 0 errs) (S (List.length errs)))
  /\
  (forall (T : Type) (fn : Z -> Settled T JsError) maxRetries delayMs errs v,
      Forall (fun e => instanceof_GmailMCPError e = false) errs ->
      (forall k e, nth_error errs k = Some e -> fn (Z.of_nat k) = Rejected e) ->
      Z.of_nat (List.length errs) < maxRetries ->
      fn (Z.of_nat (List.length errs)) = Resolved v ->
      withRetry fn maxRetries delayMs
      = mkRun (Returned v)
              (map (fun k => delayMs * (Z.of_nat k + 1)) (seq 0 (List.length errs)))
              (S (List.length errs)))
  /\
  (forall (T : Type) (fn : Z -> Settled T JsError) maxRetries delayMs errs e,
      fails_with fn 0 errs ->
      Z.of_nat (List.length errs) = maxRetries - 1 ->
      fn (maxRetries - 1) = Rejected e ->
      withRetry fn maxRetries delayMs
      = mkRun (Threw e) (backoffs delayMs 0 errs) (S (List.length errs))).
Proof.
  split; [reflexivity|].
  split.
  { intros T fn maxRetries delayMs errs v Hall Hfn Hlt Hv.
    rewrite (withRetry_succeeds fn maxRetries delayMs errs v); trivial.
    - rewrite backoffs_rate_limit by exact Hall. reflexivity.
    - eapply fails_with_Forall; [|exact Hall|exact Hfn].
      exact rate_limit_not_fatal. }
  split.
  { intros T fn delayMs m0 m1 v H0 H1 H2.
    rewrite (withRetry_succeeds fn 3 delayMs [RateLimitError m0; RateLimitError m1] v).
    - cbn. rewrite Z.mul_1_r. reflexivity.
    - intros [|[|[|k]]] e Hk; cbn in Hk; try discriminate Hk;
        injection Hk as <-; split; trivial.
    - cbn. lia.
    - exact H2. }
  split.
  { intros T fn maxRetries delayMs errs e Hf Hlt Hfn Hrl Hg Hr.
    apply withRetry_fatal; trivial.
    unfold fatal. rewrite Hrl, Hg, Hr. reflexivity. }
  split.
  { intros T fn maxRetries delayMs errs v Hall Hfn Hlt Hv.
    rewrite (withRetry_succeeds fn maxRetries delayMs errs v); trivial.
    - rewrite backoffs_linear.
      + reflexivity.
      + eapply Forall_impl; [|exact Hall].
        intros [c m cd st r|m] He; [discriminate He | reflexivity].
    - eapply fails_with_Forall; [|exact Hall|exact Hfn].
      exact unrecognized_not_fatal. }
  intros T fn maxRetries delayMs errs e Hf Hlen Hfn.
  apply withRetry_exhausted; trivial.
Qed.

Lemma withRetry_policy_witness :
  withRetry_default Scenarios.flaky = mkRun (Returned "done") [1000; 2000] 3.
Proof.
  destruct withRetry_policy as (Hdefault & _ & Htwice & _).
  rewrite Hdefault.
  apply (Htwice string Scenarios.flaky 1000 "Gmail API rate limit exceeded"
                "Gmail API rate limit exceeded" "done"); reflexivity.
Defined.

End RetryFacts.

(* ================================================================== *)
(** * Properties of the transmission client *)
(* ================================================================== *)

Module SmtpFacts.
Import Js Errors Smtp.

(** ** Strings *)

Lemma prefix_app p s : String.prefix p (p ++ s) = true.
Proof.
  induction p as [|c p IH]; cbn.
  - destruct s; reflexivity.
  - destruct (ascii_dec c c) as [_|N]; [exact IH | contradiction].
Qed.

Lemma prefix_trans p q s :
  String.prefix p q = true -> String.prefix q s = true -> String.prefix p s = true.
Proof.
  revert q s. induction p as [|c p IH]; intros q s Hpq Hqs.
  - destruct s; reflexivity.
  - destruct q as [|d q]; [discriminate Hpq|].
    destruct s as [|e s]; [discriminate Hqs|].
    cbn in *.
    destruct (ascii_dec c d) as [->|]; [|discriminate Hpq].
    destruct (ascii_dec d e) as [->|]; [|discriminate Hqs].
    eapply IH; eassumption.
Qed.

Lemma truthy_false s : truthy s = false -> s = "".
Proof. destruct s; [reflexivity | discriminate]. Qed.

Lemma truthy_true s : s <> "" -> truthy s = true.
Proof. destruct s; [contradiction | reflexivity]. Qed.

Lemma truthy_app_r s t : truthy t = true -> truthy (s ++ t) = true.
Proof. destruct s; cbn; trivial. Qed.

(** ** The subject of a reply *)

Lemma subject_of_reply_kept caller original :
  startsWith caller "Re:" || startsWith_opt original "Re:" = true ->
  subject_of_reply caller original = caller.
Proof. intros H. unfold subject_of_reply. rewrite H. reflexivity. Qed.

Lemma subject_of_reply_prefixed caller original :
  startsWith caller "Re:" || startsWith_opt original "Re:" = false ->
  subject_of_reply caller original = "Re: " ++ or_default original caller.
Proof. intros H. unfold subject_of_reply. rewrite H. reflexivity. Qed.





(** ** Submission *)

Lemma send_attempt_rejection_fatal transport m attempt e :
  send_attempt transport m attempt = Rejected e -> fatal e = true.
Proof.
  unfold send_attempt. destruct (transport attempt m); intros H.
  - discriminate H.
  - injection H as <-. reflexivity.
Qed.

(** A request that passes validation is submitted exactly once: the
    only rejection of an attempt is an SMTP_ERROR, which is not
    retried. *)
Lemma sendEmail_valid transport user options :
  truthy_field (to options) = true ->
  truthy_opt (subject options) = true ->
  truthy_opt (body options) || truthy_opt (htmlBody options) = true ->
  sendEmail transport user options
  = mkSending
      (match send_attempt transport (mailOptions user options) 0 with
       | Resolved v => Returned v
       | Rejected e => Threw e
       | Pending => NeverReturns
       end)
      [mailOptions user options].
Proof.
  intros Hto Hsubject Hbody.
  unfold sendEmail. rewrite Hto, Hsubject.
  apply orb_true_iff in Hbody.
  replace (negb (truthy_opt (body options)) && negb (truthy_opt (htmlBody options)))
    with false by (destruct Hbody as [-> | ->]; cbn; now rewrite ?andb_false_r).
  cbn [negb orb]. unfold withRetry_default.
  set (m := mailOptions user options).
  destruct (send_attempt transport m 0) as [v|e|] eqn:E.
  - rewrite (RetryFacts.withRetry_succeeds _ 3 1000 [] v);
      [reflexivity | apply RetryFacts.fails_with_nil | cbn; lia | exact E].
  - rewrite (RetryFacts.withRetry_fatal _ 3 1000 [] e);
      [reflexivity | apply RetryFacts.fails_with_nil | cbn; lia | exact E |].
    eapply send_attempt_rejection_fatal. exact E.
  - unfold send_attempt in E. destruct (transport 0 m); discriminate E.
Qed.

Lemma sendEmail_invalid transport user options :
  truthy_field (to options) = false
  \/ truthy_opt (subject options) = false
  \/ (truthy_opt (body options) = false /\ truthy_opt (htmlBody options) = false) ->
  sendEmail transport user options
  = mkSending
      (Threw (GmailMCPError "to, subject, and body (or htmlBody) are required"
                            "VALIDATION_ERROR"))
      [].
Proof.
  intros H. unfold sendEmail.
  replace (negb (truthy_field (to options))
           || negb (truthy_opt (subject options))
           || (negb (truthy_opt (body options))
               && negb (truthy_opt (htmlBody options))))
    with true; [reflexivity|].
  destruct H as [-> | [-> | [-> ->]]]; cbn; now rewrite ?orb_true_r.
Qed.

Lemma submitted_by_sendEmail transport user options mail :
  In mail (submitted (sendEmail transport user options)) ->
  mail = mailOptions user options.
Proof.
  unfold sendEmail.
  destruct (negb (truthy_field (to options))
            || negb (truthy_opt (subject options))
            || (negb (truthy_opt (body options))
                && negb (truthy_opt (htmlBody options)))).
  - intros [].
  - cbn [submitted]. intros H. apply repeat_spec in H. exact H.
Qed.

Lemma submitted_by_replyEmail transport user options original mail :
  In mail (submitted (replyEmail transport user options original)) ->
  mail = mailOptions user (replyRequest options original).
Proof.
  unfold replyEmail.
  destruct (negb (truthy_opt (reply_body options))
            && negb (truthy_opt (reply_htmlBody options))).
  - intros [].
  - apply submitted_by_sendEmail.
Qed.

(** C5: [sendEmail] called with neither a plain-text body nor an HTML
    body, or without a recipient, or without a subject (absent or
    empty), throws an error whose code is VALIDATION_ERROR, and hands no
    message to the submission channel, whatever the channel would have
    answered. *)
Theorem sendEmail_validates_first transport user options :
  (truthy_opt (body options) = false /\ truthy_opt (htmlBody options) = false)
  \/ truthy_field (to options) = false
  \/ truthy_opt (subject options) = false ->
  exists e,
    result (sendEmail transport user options) = Threw e
    /\ error_code e = Some "VALIDATION_ERROR"
    /\ fatal e = true
    /\ submitted (sendEmail transport user options) = [].
Proof.
  intros H.
  rewrite sendEmail_invalid by tauto.
  eexists. repeat split.
Qed.

Lemma sendEmail_validates_first_witness :
  (truthy_opt (body Scenarios.send_no_body) = false
   /\ truthy_opt (htmlBody Scenarios.send_no_body) = false)
  /\ exists e,
      result (sendEmail Scenarios.accepting "me@gmail.com" Scenarios.send_no_body)
      = Threw e
      /\ error_code e = Some "VALIDATION_ERROR"
      /\ fatal e = true
      /\ submitted (sendEmail Scenarios.accepting "me@gmail.com" Scenarios.send_no_body)
         = [].
Proof.
  split; [split; reflexivity|].
  apply (sendEmail_validates_first Scenarios.accepting "me@gmail.com"
                                   Scenarios.send_no_body).
  left. split; reflexivity.
Defined.

(** ** The references of a reply *)

Lemma filter_Boolean_truthy refs last :
  Forall (fun r => r <> "") refs ->
  filter_Boolean (map Some refs ++ [last])
  = (refs ++ filter_Boolean [last])%list.
Proof.
  induction 1 as [|r refs Hr _ IH]; [reflexivity|].
  cbn [map app filter_Boolean]. rewrite (truthy_true r Hr), IH. reflexivity.
Qed.

Lemma join_truthy sep refs m :
  truthy m = true -> truthy (join sep (refs ++ [m])) = true.
Proof.
  intros Hm. induction refs as [|r refs IH]; [exact Hm|].
  unfold join in *. cbn [app String.concat].
  destruct (refs ++ [m])%list eqn:E.
  - destruct refs; discriminate E.
  - apply truthy_app_r, truthy_app_r. exact IH.
Qed.

(** C3: in every message a reply submits, when the original message has
    an identifier, the references header is the references list of the
    original followed by that identifier, joined by spaces, if the
    original has such a list (of identifiers, none of them empty), and the
    identifier alone if it has none. *)
Theorem reply_references_header transport user options original m mail :
  orig_messageId original = Some m ->
  m <> "" ->
  In mail (submitted (replyEmail transport user options original)) ->
  (forall refs,
      orig_references original = Some refs ->
      Forall (fun r => r <> "") refs ->
      mail_references mail = Some (join " " (refs ++ [m])))
  /\ (orig_references original = None -> mail_references mail = Some m).
Proof.
  intros Hid Hm Hin.
  apply submitted_by_replyEmail in Hin. subst mail.
  pose proof (truthy_true m Hm) as Tm.
  unfold mailOptions, replyRequest; cbn [mail_references references].
  unfold references_of_reply. rewrite Hid.
  split.
  - intros refs -> Hrefs.
    rewrite (filter_Boolean_truthy refs (Some m) Hrefs).
    cbn [filter_Boolean]. rewrite Tm.
    cbn [option_map optional_array truthy_field as_array].
    rewrite (join_truthy " " refs m Tm). reflexivity.
  - intros ->.
    cbn [option_map optional_array truthy_field as_array].
    rewrite Tm. reflexivity.
Qed.

Lemma reply_references_header_witness :
  orig_messageId Scenarios.original_ab = Some "<b>"
  /\ orig_references Scenarios.original_ab = Some ["<a>"]
  /\ submitted (replyEmail Scenarios.accepting "me@gmail.com"
                           Scenarios.reply_hello Scenarios.original_ab)
     = [mailOptions "me@gmail.com"
                    (replyRequest Scenarios.reply_hello Scenarios.original_ab)]
  /\ mail_references
       (mailOptions "me@gmail.com"
                    (replyRequest Scenarios.reply_hello Scenarios.original_ab))
     = Some "<a> <b>".
Proof.
  split; [reflexivity|]. split; [reflexivity|]. split; [reflexivity|].
  refine (proj1 (reply_references_header
                   Scenarios.accepting "me@gmail.com"
                   Scenarios.reply_hello Scenarios.original_ab "<b>"
                   (mailOptions "me@gmail.com"
                      (replyRequest Scenarios.reply_hello Scenarios.original_ab))
                   eq_refl _ (or_introl eq_refl))
                ["<a>"] eq_refl _).
  - discriminate.
  - repeat constructor; discriminate.
Defined.

(** C10: a reply to an original message without a sender address is
    addressed to the empty string; [sendEmail] refuses that request on
    its recipient test, so the reply throws an error whose code is
    VALIDATION_ERROR and no message is submitted. *)
Theorem reply_without_sender_fails transport user options original :
  orig_from original = None
  \/ orig_from original = Some None
  \/ orig_from original = Some (Some "") ->
  to (replyRequest options original) = Some (One "")
  /\ sendEmail transport user (replyRequest options original)
     = mkSending
         (Threw (GmailMCPError "to, subject, and body (or htmlBody) are required"
                               "VALIDATION_ERROR"))
         []
  /\ (exists e,
        result (replyEmail transport user options original) = Threw e
        /\ error_code e = Some "VALIDATION_ERROR")
  /\ submitted (replyEmail transport user options original) = [].
Proof.
  intros H.
  assert (D : destination_of_reply original = "").
  { unfold destination_of_reply. destruct H as [-> | [-> | ->]]; reflexivity. }
  assert (Hto : to (replyRequest options original) = Some (One "")).
  { cbn. rewrite D. reflexivity. }
  assert (S : sendEmail transport user (replyRequest options original)
              = mkSending
                  (Threw (GmailMCPError
                            "to, subject, and body (or htmlBody) are required"
                            "VALIDATION_ERROR"))
                  []).
  { apply sendEmail_invalid. left. rewrite Hto. reflexivity. }
  split; [exact Hto|]. split; [exact S|].
  unfold replyEmail.
  destruct (negb (truthy_opt (reply_body options))
            && negb (truthy_opt (reply_htmlBody options))).
  - split; [eexists; split; reflexivity | reflexivity].
  - rewrite S. split; [eexists; split; reflexivity | reflexivity].
Qed.

Lemma reply_without_sender_fails_witness :
  orig_from Scenarios.original_no_sender = None
  /\ (exists e,
        result (replyEmail Scenarios.accepting "me@gmail.com"
                           Scenarios.reply_hello Scenarios.original_no_sender)
        = Threw e
        /\ error_code e = Some "VALIDATION_ERROR")
  /\ submitted (replyEmail Scenarios.accepting "me@gmail.com"
                           Scenarios.reply_hello Scenarios.original_no_sender)
     = [].
Proof.
  split; [reflexivity|].
  apply (reply_without_sender_fails
           Scenarios.accepting "me@gmail.com"
           Scenarios.reply_hello Scenarios.original_no_sender
           (or_introl eq_refl)).
Defined.

End SmtpFacts.

(* ================================================================== *)
(** * Properties of the mailbox client *)
(* ================================================================== *)

Module ImapFacts.
Import Js Errors Imap.

(** ** The window of selected UIDs *)

Lemma slice_window {A : Type} (l : list A) (start count : Z) :
  0 <= start -> 0 <= count ->
  slice l start (start + count)
  = firstn (Z.to_nat count) (skipn (Z.to_nat start) l).
Proof.
  intros Hs Hc. unfold slice.
  replace (start <? 0) with false by (symmetry; apply Z.ltb_ge; lia).
  replace (start + count <? 0) with false by (symmetry; apply Z.ltb_ge; lia).
  destruct (Z_le_gt_dec (Z.of_nat (List.length l)) start) as [Hge|Hlt].
  - rewrite (Z.min_r start) by lia.
    rewrite !skipn_all2 by lia.
    rewrite !firstn_nil. reflexivity.
  - rewrite (Z.min_l start) by lia.
    pose proof (length_skipn (Z.to_nat start) l) as Hlen.
    destruct (Z_le_gt_dec (start + count) (Z.of_nat (List.length l))) as [Hin|Hout].
    + rewrite Z.min_l by lia. do 2 f_equal. lia.
    + rewrite Z.min_r by lia.
      rewrite !firstn_all2 by lia. reflexivity.
Qed.

Lemma selected_uids_window results offset limit :
  0 <= offset -> 0 <= limit ->
  selected_uids results offset limit
  = firstn (Z.to_nat limit) (skipn (Z.to_nat offset) (rev results)).
Proof. intros Ho Hl. apply slice_window; assumption. Qed.

Lemma selected_uids_length results offset limit :
  0 <= offset -> 0 <= limit ->
  Z.of_nat (List.length (selected_uids results offset limit))
  = Z.min limit (Z.max 0 (Z.of_nat (List.length results) - offset)).
Proof.
  intros Ho Hl. rewrite selected_uids_window by assumption.
  rewrite length_firstn, length_skipn, length_rev. lia.
Qed.

Lemma selected_uids_nth results offset limit i :
  0 <= offset -> 0 <= limit ->
  (i < List.length (selected_uids results offset limit))%nat ->
  nth_error (selected_uids results offset limit) i
  = nth_error (rev results) (Z.to_nat offset + i).
Proof.
  intros Ho Hl. rewrite selected_uids_window by assumption. intros Hi.
  rewrite length_firstn in Hi.
  rewrite nth_error_firstn, nth_error_skipn.
  replace (i <? Z.to_nat limit)%nat with true
    by (symmetry; apply Nat.ltb_lt; lia).
  reflexivity.
Qed.

(** ** The handlers of a fetch *)

Lemma on_message_end_eq n m st :
  on_message_end n m st
  = mkFetchState (emails st ++ kept_one m) (processed st + 1)
                 (match settlement st with
                  | Some s => Some s
                  | None => if processed st + 1 =? n
                            then Some (ResolvedWith (emails st ++ kept_one m))
                            else None
                  end)
                 (console st ++ logged_one m).
Proof.
  unfold on_message_end, kept_one, logged_one, count_processed, settle.
  destruct (attributes m) as [attrs|]; [destruct (parsed m) as [p|err]|];
    cbn [emails processed settlement console];
    destruct (processed st + 1 =? n);
    cbn [emails processed settlement console];
    destruct (settlement st);
    rewrite ?app_nil_r; reflexivity.
Qed.

(** A stream of ['end'] events: every message is counted, those that
    parse are kept, those that do not are logged, and the promise is
    resolved, with the messages kept so far, when the count reaches
    [n]. *)
Lemma run_messages n ms :
  forall st,
    let st' := fold_left (fetch_step n) (map MessageEnd ms) st in
    emails st' = (emails st ++ kept ms)%list
    /\ console st' = (console st ++ logged ms)%list
    /\ processed st' = processed st + Z.of_nat (List.length ms)
    /\ settlement st'
       = match settlement st with
         | Some s => Some s
         | None =>
             if (processed st <? n) && (n <=? processed st + Z.of_nat (List.length ms))
             then Some (ResolvedWith
                          (emails st
                           ++ kept (firstn (Z.to_nat (n - processed st)) ms)))
             else None
         end.
Proof.
  induction ms as [|m ms IH]; intros st; cbn zeta.
  - cbn. rewrite !app_nil_r, Z.add_0_r. repeat split.
    destruct (settlement st); [reflexivity|].
    destruct (Z.ltb_spec (processed st) n), (Z.leb_spec n (processed st));
      cbn; trivial; lia.
  - cbn [map fold_left fetch_step]. rewrite on_message_end_eq.
    destruct (IH (mkFetchState (emails st ++ kept_one m) (processed st + 1)
                    (match settlement st with
                     | Some s => Some s
                     | None => if processed st + 1 =? n
                               then Some (ResolvedWith (emails st ++ kept_one m))
                               else None
                     end)
                    (console st ++ logged_one m))) as (He & Hc & Hp & Hs).
    cbn zeta in He, Hc, Hp, Hs. cbn [emails console processed settlement] in *.
    rewrite He, Hc, Hp, Hs.
    unfold kept, logged. cbn [flat_map List.length].
    rewrite <- !app_assoc.
    repeat split; [lia|].
    destruct (settlement st); [reflexivity|].
    destruct (Z.eqb_spec (processed st + 1) n) as [Heq|Hneq].
    + replace ((processed st <? n)
               && (n <=? processed st + Z.of_nat (S (List.length ms)))) with true
        by (symmetry; apply andb_true_iff; split;
            [apply Z.ltb_lt | apply Z.leb_le]; lia).
      replace (Z.to_nat (n - processed st)) with 1%nat by lia.
      cbn [firstn flat_map]. rewrite app_nil_r. reflexivity.
    + destruct (Z.ltb_spec (processed st) n) as [Hlt|Hge].
      * replace (processed st + 1 <? n) with true
          by (symmetry; apply Z.ltb_lt; lia).
        replace (n <=? processed st + 1 + Z.of_nat (List.length ms))
          with (n <=? processed st + Z.of_nat (S (List.length ms)))
          by (f_equal; lia).
        cbn [andb].
        destruct (n <=? processed st + Z.of_nat (S (List.length ms)));
          [|reflexivity].
        replace (Z.to_nat (n - processed st))
          with (S (Z.to_nat (n - (processed st + 1)))) by lia.
        cbn [firstn flat_map]. reflexivity.
      * replace (processed st + 1 <? n) with false
          by (symmetry; apply Z.ltb_ge; lia).
        reflexivity.
Qed.

Lemma fetch_step_settled n ev st s :
  settlement st = Some s -> settlement (fetch_step n st ev) = Some s.
Proof.
  intros H. destruct ev as [m|message]; cbn [fetch_step].
  - rewrite on_message_end_eq. cbn. rewrite H. reflexivity.
  - unfold on_fetch_error, settle. rewrite H. exact H.
Qed.

(** A settled promise stays as it is. *)
Lemma run_settled n events :
  forall st s,
    settlement st = Some s ->
    settlement (fold_left (fetch_step n) events st) = Some s.
Proof.
  induction events as [|ev events IH]; intros st s H; [exact H|].
  cbn [fold_left]. apply IH. apply fetch_step_settled. exact H.
Qed.

Lemma settle_emails s st : emails (settle s st) = emails st.
Proof. unfold settle. destruct (settlement st); reflexivity. Qed.

Lemma settle_console s st : console (settle s st) = console st.
Proof. unfold settle. destruct (settlement st); reflexivity. Qed.

(** Every selected message reaches its ['end'] event before any error is
    reported: the promise resolves with the messages kept from them, and
    nothing that the fetch emits afterwards changes what the caller
    receives. *)
Lemma run_fetch_delivered ms later :
  ms <> [] ->
  observe (run_fetch (Z.of_nat (List.length ms)) (map MessageEnd ms ++ later))
  = Resolved (kept ms).
Proof.
  intros Hne. unfold run_fetch, observe.
  rewrite fold_left_app.
  destruct (run_messages (Z.of_nat (List.length ms)) ms (mkFetchState [] 0 None []))
    as (_ & _ & _ & Hs).
  cbn zeta in Hs. cbn [emails console processed settlement] in Hs.
  replace ((0 <? Z.of_nat (List.length ms))
           && (Z.of_nat (List.length ms) <=? 0 + Z.of_nat (List.length ms)))
    with true in Hs
    by (symmetry; apply andb_true_iff; split;
        [apply Z.ltb_lt; destruct ms; [contradiction | cbn; lia]
        |apply Z.leb_le; lia]).
  replace (Z.to_nat (Z.of_nat (List.length ms) - 0)) with (List.length ms) in Hs
    by lia.
  rewrite firstn_all in Hs. cbn [app] in Hs.
  rewrite (run_settled _ later _ _ Hs). reflexivity.
Qed.

(** All the selected messages reach their ['end'] event and no error is
    reported: the promise resolves with the messages kept. *)
Lemma run_fetch_complete ms :
  ms <> [] ->
  observe (run_fetch (Z.of_nat (List.length ms)) (map MessageEnd ms))
  = Resolved (kept ms)
  /\ console (run_fetch (Z.of_nat (List.length ms)) (map MessageEnd ms))
     = logged ms.
Proof.
  intros Hne. split.
  - rewrite <- (app_nil_r (map MessageEnd ms)).
    apply run_fetch_delivered. exact Hne.
  - unfold run_fetch.
    destruct (run_messages (Z.of_nat (List.length ms)) ms (mkFetchState [] 0 None []))
      as (_ & Hc & _ & _).
    cbn zeta in Hc. cbn [console] in Hc. exact Hc.
Qed.

(** An error reported before all the selected messages reached their
    ['end'] event: the promise rejects, whatever comes next. *)
Lemma run_fetch_error n ms message rest :
  Z.of_nat (List.length ms) < n ->
  observe (run_fetch n (map MessageEnd ms ++ FetchError message :: rest))
  = Rejected (GmailMCPError ("IMAP fetch error: " ++ message) "IMAP_ERROR").
Proof.
  intros Hlt. unfold run_fetch, observe.
  rewrite fold_left_app. cbn [fold_left].
  destruct (run_messages n ms (mkFetchState [] 0 None [])) as (_ & _ & _ & Hs).
  cbn zeta in Hs. cbn [processed settlement] in Hs.
  replace ((0 <? n) && (n <=? 0 + Z.of_nat (List.length ms))) with false in Hs
    by (symmetry; apply andb_false_iff; right; apply Z.leb_gt; lia).
  rewrite (run_settled n rest _
             (RejectedWith (GmailMCPError ("IMAP fetch error: " ++ message)
                                          "IMAP_ERROR"))).
  - reflexivity.
  - cbn [fetch_step]. unfold on_fetch_error, settle. rewrite Hs. reflexivity.
Qed.

(** ** One attempt is all [listEmails] makes *)

Lemma fetch_step_rejections n ev st :
  (forall e, settlement st = Some (RejectedWith e) -> fatal e = true) ->
  forall e, settlement (fetch_step n st ev) = Some (RejectedWith e) -> fatal e = true.
Proof.
  intros Hst e. destruct ev as [m|message]; cbn [fetch_step].
  - rewrite on_message_end_eq. cbn [settlement].
    destruct (settlement st) as [s|] eqn:E.
    + intros H. apply Hst. exact H.
    + destruct (processed st + 1 =? n); discriminate.
  - unfold on_fetch_error, settle.
    destruct (settlement st) as [s|] eqn:E.
    + rewrite E. apply Hst.
    + cbn [settlement]. intros H. injection H as <-. reflexivity.
Qed.

Lemma run_rejections n events :
  forall st,
    (forall e, settlement st = Some (RejectedWith e) -> fatal e = true) ->
    forall e, settlement (fold_left (fetch_step n) events st) = Some (RejectedWith e) ->
              fatal e = true.
Proof.
  induction events as [|ev events IH]; intros st Hst; [exact Hst|].
  cbn [fold_left]. apply IH. apply fetch_step_rejections. exact Hst.
Qed.

Lemma openMailbox_fatal st mailbox e :
  openMailbox st mailbox = Some e -> fatal e = true.
Proof.
  unfold openMailbox.
  destruct (if connected st then None else connect st).
  - intros H. injection H as <-. reflexivity.
  - destruct (openBox st mailbox); intros H; [|discriminate H].
    injection H as <-. reflexivity.
Qed.

Lemma listEmails_attempt_fatal st options e :
  fst (listEmails_attempt st options) = Rejected e -> fatal e = true.
Proof.
  unfold listEmails_attempt.
  destruct (openMailbox st (get_mailbox (mailbox options))) as [e0|] eqn:Eopen.
  { cbn. intros H. injection H as <-. eapply openMailbox_fatal. exact Eopen. }
  destruct (search st (get_searchCriteria options)) as [m|[[|r results]|]].
  - cbn. intros H. injection H as <-. reflexivity.
  - discriminate.
  - destruct (selected_uids (r :: results) (get_offset options) (get_limit options))
      as [|u uids]; [discriminate|].
    cbn [fst]. unfold observe, run_fetch.
    destruct (settlement _) as [[|e1]|] eqn:E; try discriminate.
    intros H. injection H as <-.
    eapply run_rejections; [|exact E].
    cbn. discriminate.
  - discriminate.
Qed.

Lemma listEmails_eq store options :
  listEmails store options
  = mkRun (match fst (listEmails_attempt (store 0) options) with
           | Resolved v => Returned v
           | Rejected e => Threw e
           | Pending => NeverReturns
           end) [] 1.
Proof.
  unfold listEmails, withRetry_default.
  apply RetryFacts.withRetry_single_attempt; [lia|].
  intros e. apply listEmails_attempt_fatal.
Qed.

Lemma listEmails_console_eq store options :
  listEmails_console store options = snd (listEmails_attempt (store 0) options).
Proof.
  unfold listEmails_console. rewrite listEmails_eq. cbn. apply app_nil_r.
Qed.

(** The attempt, once the mailbox is open and the search has answered. *)
Lemma listEmails_attempt_eq st options answer :
  openMailbox st (get_mailbox (mailbox options)) = None ->
  search st (get_searchCriteria options) = SearchResults answer ->
  listEmails_attempt st options
  = match answer with
    | None | Some [] => (Resolved [], [])
    | Some results =>
        let uids := selected_uids results (get_offset options) (get_limit options) in
        match uids with
        | [] => (Resolved [], [])
        | _ :: _ =>
            let final := run_fetch (Z.of_nat (List.length uids)) (fetch st uids) in
            (observe final, console final)
        end
    end.
Proof.
  intros Hopen Hsearch. unfold listEmails_attempt.
  rewrite Hopen, Hsearch. destruct answer as [[|r results]|]; reflexivity.
Qed.

(** ** What a faithful fetch delivers *)

Lemma kept_fetched ms :
  forall uids,
    map fetched_uid ms = map Some uids ->
    map uid (kept ms) = uids.
Proof.
  induction ms as [|m ms IH]; intros [|u uids] H; try discriminate H; [reflexivity|].
  cbn [map] in H. injection H as Hm Hms.
  unfold kept. cbn [flat_map]. rewrite map_app.
  fold (kept ms). rewrite (IH uids Hms).
  unfold fetched_uid in Hm. unfold kept_one.
  destruct (attributes m) as [attrs|]; [|discriminate Hm].
  destruct (parsed m) as [p|err]; [|discriminate Hm].
  injection Hm as <-. reflexivity.
Qed.

Lemma kept_delivered ms uids :
  Permutation (map fetched_uid ms) (map Some uids) ->
  Permutation (map uid (kept ms)) uids
  /\ List.length (kept ms) = List.length uids
  /\ List.length ms = List.length uids.
Proof.
  intros HP.
  pose proof (Permutation_length HP) as Hlen. rewrite !length_map in Hlen.
  destruct (Permutation_map_inv Some uids HP) as (uids' & Heq & Hperm).
  pose proof (kept_fetched ms uids' Heq) as Hk.
  split; [|split].
  - rewrite Hk. symmetry. exact Hperm.
  - rewrite <- (length_map uid), Hk. symmetry. apply Permutation_length. exact Hperm.
  - exact Hlen.
Qed.

(** C1: with a limit [L] and an offset [O] (integers, not negative), on a
    search that matches [N] UIDs, [listEmails] hands to the fetch the
    window of the reversed match order that starts at position [O] and
    holds [min(L, max(0, N - O))] UIDs, and, the fetch delivering these
    messages, returns exactly that many messages, those of the window;
    without any match it returns the empty sequence. *)
Theorem listEmails_window store options answer :
  openMailbox (store 0) (get_mailbox (mailbox options)) = None ->
  search (store 0) (get_searchCriteria options) = SearchResults answer ->
  0 <= get_limit options ->
  0 <= get_offset options ->
  let L := get_limit options in
  let O := get_offset options in
  let results := match answer with Some r => r | None => [] end in
  let N := Z.of_nat (List.length results) in
  let uids := selected_uids results O L in
  (results = [] -> outcome (listEmails store options) = Returned [])
  /\ (results <> [] ->
      uids = firstn (Z.to_nat L) (skipn (Z.to_nat O) (rev results))
      /\ Z.of_nat (List.length uids) = Z.min L (Z.max 0 (N - O))
      /\ (forall i, (i < List.length uids)%nat ->
                    nth_error uids i = nth_error (rev results) (Z.to_nat O + i))
      /\ (uids = [] \/ delivers uids (fetch (store 0) uids) ->
          exists msgs,
            outcome (listEmails store options) = Returned msgs
            /\ Permutation (map uid msgs) uids
            /\ Z.of_nat (List.length msgs) = Z.min L (Z.max 0 (N - O)))).
Proof.
  intros Hopen Hsearch HL HO L O results N uids.
  rewrite listEmails_eq, (listEmails_attempt_eq _ _ answer Hopen Hsearch).
  split.
  - intros Hnil. destruct answer as [[|r rs]|]; try reflexivity.
    discriminate Hnil.
  - intros Hne.
    destruct answer as [[|r rs]|]; try (exfalso; apply Hne; reflexivity).
    pose proof (selected_uids_length (r :: rs) O L HO HL) as Hlen.
    fold results O L uids N in Hlen |- *.
    split; [apply selected_uids_window; assumption|].
    split; [exact Hlen|].
    split; [intros i Hi; apply selected_uids_nth; assumption|].
    intros [Hempty | (ms & Hev & HP)].
    + exists []. rewrite Hempty in *. cbn. repeat split; trivial.
    + destruct (kept_delivered ms uids HP) as (Hperm & Hklen & Hmlen).
      exists (kept ms).
      destruct uids as [|u us] eqn:Eu.
      * destruct ms; [|discriminate Hmlen].
        cbn. repeat split; trivial.
      * cbn zeta. rewrite Hev, <- Hmlen.
        destruct (run_fetch_complete ms) as [Hobs _].
        { intros ->. discriminate Hmlen. }
        cbn [fst outcome]. rewrite Hobs.
        split; [reflexivity|]. split; [exact Hperm|].
        rewrite Hklen. exact Hlen.
Qed.

Lemma listEmails_window_witness :
  openMailbox Scenarios.inbox "INBOX" = None
  /\ 0 <= get_limit Scenarios.second_page
  /\ 0 <= get_offset Scenarios.second_page
  /\ selected_uids [1; 2; 3; 4; 5] 1 2 = [4; 3]
  /\ exists msgs,
      outcome (listEmails (fun _ => Scenarios.inbox) Scenarios.second_page)
      = Returned msgs
      /\ Permutation (map uid msgs) [4; 3]
      /\ Z.of_nat (List.length msgs) = 2.
Proof.
  split; [reflexivity|]. split; [cbn; lia|]. split; [cbn; lia|].
  split; [reflexivity|].
  assert (H0 : 0 <= get_limit Scenarios.second_page) by (cbn; lia).
  assert (H1 : 0 <= get_offset Scenarios.second_page) by (cbn; lia).
  destruct (listEmails_window (fun _ => Scenarios.inbox) Scenarios.second_page
              (Some [1; 2; 3; 4; 5]) eq_refl eq_refl H0 H1) as [_ H].
  destruct H as (_ & _ & _ & H); [discriminate|].
  apply H. right.
  exists [Scenarios.fetched 4 [Seen]; Scenarios.fetched 3 [Seen]].
  split; [reflexivity | apply Permutation_refl].
Defined.

(** C6, as the code has it: once every selected message has reached its
    ['end'] event without an error of the fetch, the call returns the
    messages that came with attributes and parsed, in the order of
    arrival; a message that fails to parse is dropped and leaves one line
    on the console; a message that comes without attributes is dropped
    and leaves none.  An error reported by the fetch before that point
    fails the whole call with an IMAP_ERROR. *)
Theorem listEmails_partial_failure store options results ms :
  openMailbox (store 0) (get_mailbox (mailbox options)) = None ->
  search (store 0) (get_searchCriteria options) = SearchResults (Some results) ->
  let uids := selected_uids results (get_offset options) (get_limit options) in
  uids <> [] ->
  (fetch (store 0) uids = map MessageEnd ms ->
   List.length ms = List.length uids ->
   outcome (listEmails store options) = Returned (kept ms)
   /\ listEmails_console store options = logged ms)
  /\ (forall message rest,
         fetch (store 0) uids = (map MessageEnd ms ++ FetchError message :: rest)%list ->
         (List.length ms < List.length uids)%nat ->
         outcome (listEmails store options)
         = Threw (GmailMCPError ("IMAP fetch error: " ++ message) "IMAP_ERROR")).
Proof.
  intros Hopen Hsearch uids Hne.
  rewrite listEmails_console_eq, listEmails_eq.
  rewrite (listEmails_attempt_eq _ _ (Some results) Hopen Hsearch).
  assert (Hres : results <> []).
  { intros ->. apply Hne. unfold uids, selected_uids, slice, reverse.
    cbn [rev List.length skipn]. rewrite skipn_nil, firstn_nil. reflexivity. }
  destruct results as [|r rs]; [contradiction|].
  cbn zeta. fold uids.
  destruct uids as [|u us] eqn:Eu; [contradiction|].
  split.
  - intros Hev Hlen. rewrite Hev, <- Hlen.
    destruct (run_fetch_complete ms) as [Hobs Hcons].
    { intros ->. discriminate Hlen. }
    cbn [fst snd outcome]. rewrite Hobs, Hcons. split; reflexivity.
  - intros message rest Hev Hlen. rewrite Hev.
    cbn [fst outcome].
    rewrite run_fetch_error by lia. reflexivity.
Qed.

Lemma listEmails_partial_failure_witness :
  selected_uids [1; 2; 3] 0 50 = [3; 2; 1]
  /\ outcome (listEmails (fun _ => Scenarios.partial_inbox) Scenarios.no_options)
     = Returned [parseEmail (Scenarios.mail_with_subject "Meeting") 3 []]
  /\ listEmails_console (fun _ => Scenarios.partial_inbox) Scenarios.no_options
     = [ParseErrorLine 2 (Other "Invalid MIME")].
Proof.
  split; [reflexivity|].
  refine (proj1 (listEmails_partial_failure
                   (fun _ => Scenarios.partial_inbox) Scenarios.no_options [1; 2; 3]
                   [Scenarios.fetched 3 [];
                    mkFetched (Some (mkAttrs 2 None)) (inr (Other "Invalid MIME"));
                    mkFetched None (inl (Scenarios.mail_with_subject "Lost"))]
                   eq_refl eq_refl _)
                eq_refl eq_refl).
  discriminate.
Defined.

(** C6, as stated: the fetch of the second page reports the message 4 and
    then an error; the call fails with that error although one message
    was parsed, so it is not true that the call never fails.  And a
    message fetched without its attributes is dropped without any line on
    the console. *)
Lemma batch_never_fails_refuted :
  outcome (listEmails (fun _ => Scenarios.lossy_inbox) Scenarios.second_page)
  = Threw (GmailMCPError "IMAP fetch error: Connection lost" "IMAP_ERROR")
  /\ ~ batch_never_fails (fun _ => Scenarios.lossy_inbox) Scenarios.second_page
  /\ outcome (listEmails (fun _ => Scenarios.silent_inbox) Scenarios.no_options)
     = Returned []
  /\ listEmails_console (fun _ => Scenarios.silent_inbox) Scenarios.no_options = [].
Proof.
  assert (H : outcome (listEmails (fun _ => Scenarios.lossy_inbox) Scenarios.second_page)
              = Threw (GmailMCPError "IMAP fetch error: Connection lost" "IMAP_ERROR"))
    by reflexivity.
  split; [exact H|]. split.
  - intros [msgs Hm]. rewrite H in Hm. discriminate Hm.
  - split; reflexivity.
Qed.

(** ** [unread] *)

Lemma parseEmail_unread parsed uid flags :
  unread_derived (parseEmail parsed uid flags).
Proof. reflexivity. Qed.

Lemma kept_one_unread m : Forall unread_derived (kept_one m).
Proof.
  unfold kept_one.
  destruct (attributes m); [destruct (parsed m)|]; repeat constructor.
Qed.

(** A property of messages that every message kept from the events of a
    fetch has, holds of the array [emails] at every point and of the
    array a resolved promise carries. *)
Lemma fetch_step_keeps (Q : EmailMessage -> Prop) n ev st :
  (forall fm, ev = MessageEnd fm -> Forall Q (kept_one fm)) ->
  Forall Q (emails st)
  /\ (forall v, settlement st = Some (ResolvedWith v) -> Forall Q v) ->
  Forall Q (emails (fetch_step n st ev))
  /\ (forall v, settlement (fetch_step n st ev) = Some (ResolvedWith v) ->
                Forall Q v).
Proof.
  intros Hev [He Hv]. destruct ev as [m|message]; cbn [fetch_step].
  - rewrite on_message_end_eq. cbn [emails settlement].
    assert (Hk : Forall Q (emails st ++ kept_one m))
      by (apply Forall_app; split; [exact He | apply Hev; reflexivity]).
    split; [exact Hk|].
    intros v. destruct (settlement st) as [s|].
    + apply Hv.
    + destruct (processed st + 1 =? n); [|discriminate].
      intros H. injection H as <-. exact Hk.
  - unfold on_fetch_error. rewrite settle_emails. split; [exact He|].
    intros v. unfold settle. destruct (settlement st) as [s|] eqn:E.
    + rewrite E. apply Hv.
    + cbn [settlement]. discriminate.
Qed.

Lemma run_keeps (Q : EmailMessage -> Prop) n events :
  forall st,
    (forall fm, In (MessageEnd fm) events -> Forall Q (kept_one fm)) ->
    Forall Q (emails st)
    /\ (forall v, settlement st = Some (ResolvedWith v) -> Forall Q v) ->
    Forall Q (emails (fold_left (fetch_step n) events st))
    /\ (forall v, settlement (fold_left (fetch_step n) events st)
                  = Some (ResolvedWith v) -> Forall Q v).
Proof.
  induction events as [|ev events IH]; intros st Hev H; [exact H|].
  cbn [fold_left]. apply IH.
  - intros fm Hin. apply Hev. right. exact Hin.
  - apply fetch_step_keeps; [|exact H].
    intros fm ->. apply Hev. left. reflexivity.
Qed.

(** What [listEmails] hands to its caller, when the fetch resolves, has
    the property too. *)
Lemma run_fetch_keeps (Q : EmailMessage -> Prop) n events msgs :
  (forall fm, In (MessageEnd fm) events -> Forall Q (kept_one fm)) ->
  observe (run_fetch n events) = Resolved msgs ->
  Forall Q msgs.
Proof.
  intros Hev. unfold observe, run_fetch.
  destruct (settlement _) as [[v|e]|] eqn:E; try discriminate.
  intros H. injection H as <-.
  refine (proj2 (run_keeps Q n events (mkFetchState [] 0 None []) Hev _) v E).
  split; [constructor | cbn; discriminate].
Qed.

Lemma listEmails_attempt_unread st options msgs :
  fst (listEmails_attempt st options) = Resolved msgs ->
  Forall unread_derived msgs.
Proof.
  unfold listEmails_attempt.
  destruct (openMailbox st (get_mailbox (mailbox options))); [discriminate|].
  destruct (search st (get_searchCriteria options)) as [m|[[|r results]|]];
    try discriminate;
    try (cbn; intros H; injection H as <-; constructor).
  destruct (selected_uids (r :: results) (get_offset options) (get_limit options))
    as [|u uids]; [cbn; intros H; injection H as <-; constructor|].
  cbn [fst]. apply run_fetch_keeps.
  intros fm _. apply kept_one_unread.
Qed.

Lemma getEmail_step_unread uid events :
  forall acc,
    (forall m, acc = Some (Resolved m) -> unread_derived m) ->
    forall m, fold_left (getEmail_step uid) events acc = Some (Resolved m) ->
              unread_derived m.
Proof.
  induction events as [|ev events IH]; intros acc Hacc; [exact Hacc|].
  cbn [fold_left]. apply IH.
  intros m. unfold getEmail_step.
  destruct acc as [s|]; [apply Hacc|].
  destruct ev as [fm|message].
  - destruct (parsed fm); intros H; [|discriminate H].
    injection H as <-. apply parseEmail_unread.
  - destruct (str_includes message "not found"); discriminate.
Qed.

Lemma getEmail_attempt_unread st uid mailbox m :
  getEmail_attempt st uid mailbox = Resolved m -> unread_derived m.
Proof.
  unfold getEmail_attempt.
  destruct (openMailbox st (get_mailbox mailbox)); [discriminate|].
  destruct (fold_left (getEmail_step uid) (fetch st [uid]) None) as [s|] eqn:E;
    [|discriminate].
  intros ->. eapply getEmail_step_unread; [|exact E]. discriminate.
Qed.

(** C8: [parseEmail] computes [unread] as the negation of the presence of
    the seen marker among the flags it stores in the message, and every
    message returned by [listEmails], [searchEmails] or [getEmail] has
    its [unread] field equal to the negation of the presence of the seen
    marker among its flags. *)
Theorem unread_is_derived :
  (forall parsed uid flags0,
      flags (parseEmail parsed uid flags0) = flags0
      /\ unread (parseEmail parsed uid flags0) = negb (includes flags0 Seen))
  /\ (forall store options msgs,
        outcome (listEmails store options) = Returned msgs ->
        Forall unread_derived msgs)
  /\ (forall store options msgs,
        outcome (searchEmails store options) = Returned msgs ->
        Forall unread_derived msgs)
  /\ (forall store uid0 mailbox0 m,
        outcome (getEmail store uid0 mailbox0) = Returned m ->
        unread m = negb (includes (flags m) Seen)).
Proof.
  split; [intros; split; reflexivity|].
  assert (HL : forall store options msgs,
             outcome (listEmails store options) = Returned msgs ->
             Forall unread_derived msgs).
  { intros store options msgs H.
    apply RetryFacts.withRetry_returned in H. destruct H as [k Hk].
    eapply listEmails_attempt_unread. exact Hk. }
  split; [exact HL|]. split.
  - intros store options msgs. apply HL.
  - intros store uid0 mailbox0 m H.
    apply RetryFacts.withRetry_returned in H. destruct H as [k Hk].
    eapply getEmail_attempt_unread. exact Hk.
Qed.

Lemma unread_is_derived_witness :
  exists msgs,
    outcome (listEmails (fun _ => Scenarios.inbox) Scenarios.second_page) = Returned msgs
    /\ map unread msgs = [false; false]
    /\ Forall unread_derived msgs.
Proof.
  eexists. split; [reflexivity|]. split; [reflexivity|].
  destruct unread_is_derived as (_ & H & _).
  apply (H (fun _ => Scenarios.inbox) Scenarios.second_page). reflexivity.
Defined.

End ImapFacts.

(* ================================================================== *)
(** * Properties of the scheduler *)
(* ================================================================== *)

Module SchedulerFacts.
Import Js Errors Scheduler.

Section Registration.

Variable Number : string -> JsNumber.
Variable ToString : JsNumber -> string.
Variable trim : string -> string.
Variable hostTimeZone : option string.
Variable cron_rejects : string -> string -> option JsError.

Local Abbreviation timeToCron := (timeToCronExpression Number ToString).
Local Abbreviation register := (register_entry Number ToString trim cron_rejects).
Local Abbreviation setup := (setupScheduler Number ToString trim hostTimeZone cron_rejects).
Local Abbreviation tasks_of := (entry_tasks Number ToString trim cron_rejects).
Local Abbreviation line_of := (entry_line Number ToString trim cron_rejects).

Lemma timeToCron_out_of_range time :
  out_of_range Number time ->
  timeToCron time = inr (Other (invalid_time_message time)).
Proof.
  unfold out_of_range, timeToCronExpression. intros H.
  replace (isNaN (hours_of Number time) || isNaN (minutes_of Number time)
           || lt_const (hours_of Number time) 0 || gt_const (hours_of Number time) 23
           || lt_const (minutes_of Number time) 0
           || gt_const (minutes_of Number time) 59)
    with true; [reflexivity|].
  destruct H as [-> | [-> | [-> | ->]]]; now rewrite ?orb_true_r.
Qed.

Lemma timeToCron_in_range time :
  in_range Number time ->
  timeToCron time = inl (daily_at Number ToString time).
Proof.
  intros (h & m & Hh & Hm & Hh0 & Hh23 & Hm0 & Hm59).
  unfold timeToCronExpression, daily_at. rewrite Hh, Hm.
  cbn [isNaN lt_const gt_const orb].
  apply Qle_bool_iff in Hh0, Hh23, Hm0, Hm59.
  rewrite Hh0, Hh23, Hm0, Hm59. reflexivity.
Qed.

(** The loop handles each entry on its own: the tasks and the lines of a
    list of entries are those of its entries, in order. *)
Lemma register_all tz entries :
  forall acc,
    fold_left (register tz) entries acc
    = ((fst acc ++ flat_map (tasks_of tz) entries)%list,
       (snd acc ++ map (line_of tz) entries)%list).
Proof.
  induction entries as [|time entries IH]; intros [tasks console].
  - cbn. rewrite !app_nil_r. reflexivity.
  - cbn [fold_left flat_map map]. rewrite IH.
    unfold register_entry, entry_tasks, entry_line.
    destruct (timeToCron (trim time)) as [expression|error].
    + destruct (cron_rejects expression tz);
        cbn [fst snd]; rewrite <- ?app_assoc; reflexivity.
    + cbn [fst snd]; rewrite <- ?app_assoc; reflexivity.
Qed.

Lemma setup_enabled config :
  enabled config = true ->
  setup config
  = match times config with
    | [] => ([], [NoTimesConfigured])
    | _ => (flat_map (tasks_of (resolve_timezone hostTimeZone config)) (times config),
            map (line_of (resolve_timezone hostTimeZone config)) (times config))
    end.
Proof.
  intros He. unfold setupScheduler. rewrite He. cbn [negb].
  destruct (times config) as [|t ts]; [reflexivity|].
  rewrite register_all. reflexivity.
Qed.

Lemma setup_tasks config :
  enabled config = true ->
  fst (setup config)
  = flat_map (tasks_of (resolve_timezone hostTimeZone config)) (times config).
Proof.
  intros He. rewrite (setup_enabled config He).
  destruct (times config); reflexivity.
Qed.

(** C7: in an enabled configuration, an entry whose hour is outside 0-23
    or whose minute is outside 0-59 makes [timeToCronExpression] throw an
    error that names the entry and the expected format; the entry is
    reported on the console and registers nothing, and the tasks
    registered are those of the configuration without it: every other
    entry that is in range and that the cron library accepts registers
    its daily trigger. *)
Theorem setupScheduler_skips_invalid config before bad after :
  enabled config = true ->
  times config = (before ++ bad :: after)%list ->
  out_of_range Number (trim bad) ->
  let tz := resolve_timezone hostTimeZone config in
  timeToCron (trim bad)
  = inr (Other ("Invalid time format: " ++ trim bad ++ ". Expected format: HH:mm"))
  /\ In (RegistrationFailed
          bad (Other ("Invalid time format: " ++ trim bad ++ ". Expected format: HH:mm")))
       (snd (setup config))
  /\ fst (setup config)
     = fst (setup (mkConfig true (before ++ after) (timezone config)))
  /\ (forall time,
        In time (before ++ after) ->
        in_range Number (trim time) ->
        cron_rejects (daily_at Number ToString (trim time)) tz = None ->
        In (mkTask (daily_at Number ToString (trim time)) tz) (fst (setup config))).
Proof.
  intros He Ht Hbad tz.
  pose proof (timeToCron_out_of_range (trim bad) Hbad) as Hcron.
  assert (Hnone : tasks_of tz bad = []).
  { unfold entry_tasks. rewrite Hcron. reflexivity. }
  assert (Htasks : fst (setup config)
                   = (flat_map (tasks_of tz) before ++ flat_map (tasks_of tz) after)%list).
  { rewrite (setup_tasks config He), Ht, flat_map_app.
    cbn [flat_map]. fold tz. rewrite Hnone. reflexivity. }
  split; [exact Hcron|]. split; [|split].
  - rewrite (setup_enabled config He), Ht.
    destruct (before ++ bad :: after)%list eqn:E.
    + destruct before; discriminate E.
    + rewrite <- E. cbn [snd]. apply in_map_iff. exists bad. split.
      * unfold entry_line. rewrite Hcron. reflexivity.
      * apply in_elt.
  - rewrite Htasks, setup_tasks by reflexivity.
    cbn [times]. rewrite flat_map_app. reflexivity.
  - intros time Hin Hrange Hok.
    rewrite Htasks, <- flat_map_app. apply in_flat_map.
    exists time. split; [exact Hin|].
    unfold entry_tasks. rewrite (timeToCron_in_range _ Hrange), Hok.
    left. reflexivity.
Qed.

End Registration.

Lemma setupScheduler_skips_invalid_witness :
  out_of_range Plain.Number (Plain.trim "25:00")
  /\ in_range Plain.Number (Plain.trim "15:00")
  /\ Plain.trim "15:00" = "15:00"
  /\ daily_at Plain.Number Plain.ToString "15:00" = "0 15 * * *"
  /\ In (RegistrationFailed
          "25:00" (Other "Invalid time format: 25:00. Expected format: HH:mm"))
       (snd (setupScheduler Plain.Number Plain.ToString Plain.trim None
                            Plain.cron_rejects Scenarios.schedule_25_15))
  /\ In (mkTask "0 15 * * *" "Europe/Berlin")
       (fst (setupScheduler Plain.Number Plain.ToString Plain.trim None
                            Plain.cron_rejects Scenarios.schedule_25_15)).
Proof.
  assert (Hbad : out_of_range Plain.Number (Plain.trim "25:00"))
    by (right; left; reflexivity).
  assert (Hgood : in_range Plain.Number (Plain.trim "15:00")).
  { exists (inject_Z 15), (inject_Z 0).
    repeat split; try reflexivity; cbv; discriminate. }
  destruct (setupScheduler_skips_invalid
              Plain.Number Plain.ToString Plain.trim None Plain.cron_rejects
              Scenarios.schedule_25_15 [] "25:00" ["15:00"]
              eq_refl eq_refl Hbad) as (_ & Hline & _ & Hreg).
  split; [exact Hbad|]. split; [exact Hgood|].
  split; [reflexivity|]. split; [reflexivity|].
  split; [exact Hline|].
  apply (Hreg "15:00"); [left; reflexivity | exact Hgood | reflexivity].
Defined.

End SchedulerFacts.

(* ================================================================== *)
(** * Further properties of the retry wrapper *)
(* ================================================================== *)

Module RetryMore.
Import Js Errors.

Section Counting.
Context {T : Type}.
Variable fn : Z -> Settled T JsError.
Variables maxRetries delayMs : Z.

(** Calls and pauses of the loop, when it is granted the iterations it
    needs: every iteration calls [fn] once, and pauses once unless it is
    the one that ends the loop. *)
Lemma retry_loop_counts remaining :
  forall attempt lastError slept called,
    maxRetries - attempt <= Z.of_nat remaining ->
    let r := retry_loop fn maxRetries delayMs remaining attempt lastError slept called in
    (calls r <= called + remaining)%nat
    /\ ((calls r = called /\ sleeps r = slept /\ maxRetries <= attempt)
        \/ (called < calls r
            /\ List.length (sleeps r) + S called = List.length slept + calls r)%nat).
Proof.
  induction remaining as [|remaining IH];
    intros attempt lastError slept called Hfuel; cbn zeta.
  - cbn. split; [lia | left; repeat split; lia].
  - cbn [retry_loop].
    destruct (Z.ltb_spec attempt maxRetries) as [Hlt|Hge];
      [|cbn; split; [lia | left; repeat split; lia]].
    destruct (fn attempt) as [v|e|]; try (cbn; split; [lia | right; lia]).
    assert (Hrec : forall pause,
               attempt < maxRetries - 1 ->
               let r := retry_loop fn maxRetries delayMs remaining (attempt + 1)
                                   (Some e) (slept ++ [pause]) (S called) in
               (calls r <= called + S remaining)%nat
               /\ ((calls r = called /\ sleeps r = slept /\ maxRetries <= attempt)
                   \/ (called < calls r
                       /\ List.length (sleeps r) + S called
                          = List.length slept + calls r)%nat)).
    { intros pause Hbefore.
      destruct (IH (attempt + 1) (Some e) (slept ++ [pause])%list (S called))
        as [Hle Hcase]; [lia|].
      cbn zeta in *. split; [lia|]. right.
      destruct Hcase as [(_ & _ & Habs) | [Hlt' Hlen]]; [lia|].
      rewrite length_app in Hlen. cbn [List.length] in Hlen. lia. }
    destruct (instanceof_RateLimitError e); cbn [andb].
    + destruct (Z.ltb_spec attempt (maxRetries - 1)) as [Hb|Hb]; [apply Hrec; exact Hb|].
      destruct (instanceof_GmailMCPError e && negb (retryable e));
        [cbn; split; [lia | right; lia]|].
      destruct (Z.eqb_spec attempt (maxRetries - 1));
        [cbn; split; [lia | right; lia] | apply Hrec; lia].
    + destruct (instanceof_GmailMCPError e && negb (retryable e));
        [cbn; split; [lia | right; lia]|].
      destruct (Z.eqb_spec attempt (maxRetries - 1));
        [cbn; split; [lia | right; lia] | apply Hrec; lia].
Qed.

(** The outcome of the loop is the way the last call of [fn] settled. *)
Lemma retry_loop_last_call remaining :
  forall attempt lastError slept called,
    attempt = Z.of_nat called ->
    (match lastError with
     | Some e => exists k, called = S k /\ fn (Z.of_nat k) = Rejected e
     | None => called = O
     end) ->
    let r := retry_loop fn maxRetries delayMs remaining attempt lastError slept called in
    match outcome r with
    | Returned v => exists k, calls r = S k /\ fn (Z.of_nat k) = Resolved v
    | Threw e => exists k, calls r = S k /\ fn (Z.of_nat k) = Rejected e
    | NeverReturns => exists k, calls r = S k /\ fn (Z.of_nat k) = Pending
    | ThrewUndefined => calls r = O
    end.
Proof.
  induction remaining as [|remaining IH];
    intros attempt lastError slept called Hattempt Hlast; cbn zeta.
  - cbn. destruct lastError; exact Hlast.
  - cbn [retry_loop].
    destruct (attempt <? maxRetries); [|cbn; destruct lastError; exact Hlast].
    subst attempt.
    destruct (fn (Z.of_nat called)) as [v|e|] eqn:E;
      try (cbn; exists called; split; [reflexivity | exact E]).
    assert (Hrec : forall pause,
               let r := retry_loop fn maxRetries delayMs remaining
                                   (Z.of_nat called + 1) (Some e)
                                   (slept ++ [pause]) (S called) in
               match outcome r with
               | Returned v => exists k, calls r = S k /\ fn (Z.of_nat k) = Resolved v
               | Threw e0 => exists k, calls r = S k /\ fn (Z.of_nat k) = Rejected e0
               | NeverReturns => exists k, calls r = S k /\ fn (Z.of_nat k) = Pending
               | ThrewUndefined => calls r = O
               end).
    { intros pause. apply IH; [lia|].
      exists called. split; [reflexivity | exact E]. }
    destruct (instanceof_RateLimitError e && (Z.of_nat called <? maxRetries - 1));
      [apply Hrec|].
    destruct (instanceof_GmailMCPError e && negb (retryable e));
      [cbn; exists called; split; [reflexivity | exact E]|].
    destruct (Z.of_nat called =? maxRetries - 1);
      [cbn; exists called; split; [reflexivity | exact E] | apply Hrec].
Qed.

(** X1: [withRetry] calls the operation at most [maxRetries] times, at
    least once when [maxRetries] is positive, and pauses once between two
    consecutive calls, never after the last one; with a [maxRetries] that
    is not positive it calls nothing and throws [undefined]. *)
Theorem withRetry_calls_and_pauses :
  let r := withRetry fn maxRetries delayMs in
  (calls r <= Z.to_nat maxRetries)%nat
  /\ List.length (sleeps r) = pred (calls r)
  /\ (0 < maxRetries -> (1 <= calls r)%nat)
  /\ (maxRetries <= 0 -> r = mkRun ThrewUndefined [] 0).
Proof.
  cbn zeta. unfold withRetry.
  destruct (retry_loop_counts (Z.to_nat maxRetries) 0 None [] O) as [Hle Hcase];
    [lia|].
  cbn zeta in Hle, Hcase.
  split; [exact Hle|]. split; [|split].
  - destruct Hcase as [(-> & -> & _) | [Hlt Hlen]]; [reflexivity | cbn in Hlen; lia].
  - intros Hpos. destruct Hcase as [(_ & _ & Habs) | [Hlt _]]; lia.
  - intros Hnp. replace (Z.to_nat maxRetries) with O by lia. reflexivity.
Qed.

(** X2: what [withRetry] returns or throws is what the last call of the
    operation resolved or rejected with: it returns no value and throws
    no error of its own, save [undefined] when it made no call. *)
Theorem withRetry_outcome_of_last_call :
  let r := withRetry fn maxRetries delayMs in
  match outcome r with
  | Returned v => exists k, calls r = S k /\ fn (Z.of_nat k) = Resolved v
  | Threw e => exists k, calls r = S k /\ fn (Z.of_nat k) = Rejected e
  | NeverReturns => exists k, calls r = S k /\ fn (Z.of_nat k) = Pending
  | ThrewUndefined => calls r = O
  end.
Proof.
  cbn zeta. unfold withRetry.
  apply (retry_loop_last_call (Z.to_nat maxRetries) 0 None [] O); reflexivity.
Qed.

End Counting.

End RetryMore.

(* ================================================================== *)
(** * Further properties of the mailbox client *)
(* ================================================================== *)

Module ImapMore.
Import Js Errors Imap MarkRead.

Lemma append_assoc (a b c : string) : ((a ++ b) ++ c = a ++ (b ++ c))%string.
Proof. induction a as [|x a IH]; cbn; [reflexivity | rewrite IH; reflexivity]. Qed.

(** ** [getEmail] *)

(** The promise of [getEmail] is settled by the first handler that
    completes. *)
Lemma getEmail_fold_settled uid events :
  forall s, fold_left (getEmail_step uid) events (Some s) = Some s.
Proof.
  induction events as [|ev events IH]; intros s; [reflexivity|].
  cbn [fold_left getEmail_step]. apply IH.
Qed.

Lemma getEmail_fold_first uid ev events :
  fold_left (getEmail_step uid) (ev :: events) None = getEmail_step uid None ev.
Proof.
  cbn [fold_left].
  destruct (getEmail_step uid None ev) as [s|] eqn:E.
  - apply getEmail_fold_settled.
  - exfalso. unfold getEmail_step in E.
    destruct ev as [m|message].
    + destruct (parsed m); discriminate E.
    + destruct (str_includes message "not found"); discriminate E.
Qed.

Lemma getEmail_step_fatal uid ev e :
  getEmail_step uid None ev = Some (Rejected e) -> fatal e = true.
Proof.
  unfold getEmail_step. destruct ev as [m|message].
  - destruct (parsed m); intros H; [discriminate H|].
    injection H as <-. reflexivity.
  - destruct (str_includes message "not found"); intros H; injection H as <-; reflexivity.
Qed.

Lemma getEmail_attempt_fatal st uid mailbox e :
  getEmail_attempt st uid mailbox = Rejected e -> fatal e = true.
Proof.
  unfold getEmail_attempt.
  destruct (openMailbox st (get_mailbox mailbox)) as [e0|] eqn:Eopen.
  { intros H. injection H as <-. eapply ImapFacts.openMailbox_fatal. exact Eopen. }
  destruct (fetch st [uid]) as [|ev events]; [discriminate|].
  rewrite getEmail_fold_first.
  destruct (getEmail_step uid None ev) as [s|] eqn:E; [|discriminate].
  intros ->. eapply getEmail_step_fatal. exact E.
Qed.

Lemma getEmail_eq store uid mailbox :
  getEmail store uid mailbox
  = mkRun (match getEmail_attempt (store 0) uid mailbox with
           | Resolved v => Returned v
           | Rejected e => Threw e
           | Pending => NeverReturns
           end) [] 1.
Proof.
  unfold getEmail, withRetry_default.
  apply RetryFacts.withRetry_single_attempt; [lia|].
  intros e. apply getEmail_attempt_fatal.
Qed.

(** ** [markAsRead] *)

Lemma markAsRead_attempt_fatal st addFlags uids mailbox e :
  fst (markAsRead_attempt st addFlags uids mailbox) = Rejected e -> fatal e = true.
Proof.
  unfold markAsRead_attempt.
  destruct (openMailbox st (get_mailbox mailbox)) as [e0|] eqn:Eopen.
  { cbn. intros H. injection H as <-. eapply ImapFacts.openMailbox_fatal. exact Eopen. }
  destruct (addFlags uids Seen); cbn; intros H; [|discriminate H].
  injection H as <-. reflexivity.
Qed.

Lemma markAsRead_eq store addFlags uids mailbox :
  markAsRead store addFlags uids mailbox
  = mkRun (match fst (markAsRead_attempt (store 0) (addFlags 0) uids mailbox) with
           | Resolved v => Returned v
           | Rejected e => Threw e
           | Pending => NeverReturns
           end) [] 1.
Proof.
  unfold markAsRead, withRetry_default.
  apply RetryFacts.withRetry_single_attempt; [lia|].
  intros e. apply markAsRead_attempt_fatal.
Qed.

(** X4: when the fetch reports the ['end'] of fewer messages than
    [listEmails] selected and no error, the promise of [listEmails] is
    never settled: the call neither returns nor throws. *)
Theorem listEmails_waits_for_every_selected_message store options results ms :
  openMailbox (store 0) (get_mailbox (mailbox options)) = None ->
  search (store 0) (get_searchCriteria options) = SearchResults (Some results) ->
  let uids := selected_uids results (get_offset options) (get_limit options) in
  fetch (store 0) uids = map MessageEnd ms ->
  (List.length ms < List.length uids)%nat ->
  outcome (listEmails store options) = NeverReturns.
Proof.
  intros Hopen Hsearch uids Hev Hlen.
  rewrite ImapFacts.listEmails_eq.
  rewrite (ImapFacts.listEmails_attempt_eq _ _ (Some results) Hopen Hsearch).
  destruct results as [|r rs].
  { exfalso. unfold uids, selected_uids, slice, reverse in Hlen.
    cbn [rev List.length skipn] in Hlen.
    rewrite skipn_nil, firstn_nil in Hlen. cbn in Hlen. lia. }
  cbn zeta. fold uids.
  destruct uids as [|u us] eqn:Eu; [cbn in Hlen; lia|].
  rewrite Hev. cbn [fst]. unfold observe, run_fetch.
  destruct (ImapFacts.run_messages (Z.of_nat (List.length (u :: us))) ms
              (mkFetchState [] 0 None [])) as (_ & _ & _ & Hs).
  cbn zeta in Hs. cbn [processed settlement] in Hs. rewrite Hs.
  replace ((0 <? Z.of_nat (List.length (u :: us)))
           && (Z.of_nat (List.length (u :: us)) <=? 0 + Z.of_nat (List.length ms)))
    with false; [reflexivity|].
  symmetry. apply andb_false_iff. right. apply Z.leb_gt. lia.
Qed.

Lemma listEmails_waits_for_every_selected_message_witness :
  selected_uids [1; 2; 3; 4; 5] 0 50 = [5; 4; 3; 2; 1]
  /\ outcome (listEmails (fun _ => MoreScenarios.stalled_inbox) Scenarios.no_options)
     = NeverReturns.
Proof.
  split; [reflexivity|].
  apply (listEmails_waits_for_every_selected_message
           (fun _ => MoreScenarios.stalled_inbox) Scenarios.no_options
           [1; 2; 3; 4; 5] [Scenarios.fetched 5 []] eq_refl eq_refl eq_refl).
  apply Nat.ltb_lt. reflexivity.
Defined.

(** X5: the message [getEmail] returns carries the UID that was asked
    for, whatever UID the attributes of the fetched message report. *)
Theorem getEmail_returns_requested_uid store uid0 mailbox0 m :
  outcome (getEmail store uid0 mailbox0) = Returned m ->
  uid m = uid0.
Proof.
  rewrite getEmail_eq. cbn [outcome]. unfold getEmail_attempt.
  destruct (openMailbox (store 0) (get_mailbox mailbox0)); [discriminate|].
  destruct (fetch (store 0) [uid0]) as [|ev events]; [discriminate|].
  rewrite getEmail_fold_first. unfold getEmail_step.
  destruct ev as [fm|message].
  - destruct (parsed fm); intros H; [|discriminate H].
    injection H as <-. reflexivity.
  - destruct (str_includes message "not found"); discriminate.
Qed.

Lemma getEmail_returns_requested_uid_witness :
  exists m,
    outcome (getEmail (fun _ => Scenarios.inbox) 42 None) = Returned m
    /\ uid m = 42.
Proof.
  eexists. split; [reflexivity|].
  apply (getEmail_returns_requested_uid (fun _ => Scenarios.inbox) 42 None).
  reflexivity.
Defined.

(** X6: once the mailbox is open, [getEmail] is decided by the first
    handler of the fetch that runs to completion, whatever completes
    after it.  The handler of a message's ['end'] completes when the
    parse of the message ends, the handler of an error as soon as the
    error is reported: a message whose parse is still running when an
    error is reported comes after the error in this order.  If the first
    to complete is a message that parses, that message is returned; if it
    is an error whose text contains "not found", the call throws a
    NOT_FOUND_ERROR naming the UID (written with its decimal digits, for
    a UID that JavaScript holds exactly); any other error, and a message
    that does not parse, give an IMAP_ERROR; and when no handler
    completes the call waits for ever. *)
Theorem getEmail_first_completed_handler_decides store uid0 mailbox0 :
  openMailbox (store 0) (get_mailbox mailbox0) = None ->
  (fetch (store 0) [uid0] = [] ->
   outcome (getEmail store uid0 mailbox0) = NeverReturns)
  /\ (forall fm p rest,
         fetch (store 0) [uid0] = MessageEnd fm :: rest ->
         parsed fm = inl p ->
         outcome (getEmail store uid0 mailbox0)
         = Returned (parseEmail p uid0
                       (match attributes fm with
                        | Some attrs =>
                            match attrs_flags attrs with Some f => f | None => [] end
                        | None => []
                        end)))
  /\ (forall fm err rest,
         fetch (store 0) [uid0] = MessageEnd fm :: rest ->
         parsed fm = inr err ->
         outcome (getEmail store uid0 mailbox0)
         = Threw (GmailMCPError ("Error parsing email: " ++ error_message err)
                                "IMAP_ERROR"))
  /\ (forall message rest,
         fetch (store 0) [uid0] = FetchError message :: rest ->
         str_includes message "not found" = true ->
         - 2 ^ 53 < uid0 < 2 ^ 53 ->
         outcome (getEmail store uid0 mailbox0)
         = Threw (Gmail NotFoundClass
                        ("Email with UID " ++ number_to_string uid0 ++ " not found")
                        "NOT_FOUND_ERROR" (Some 404) false))
  /\ (forall message rest,
         fetch (store 0) [uid0] = FetchError message :: rest ->
         str_includes message "not found" = false ->
         outcome (getEmail store uid0 mailbox0)
         = Threw (GmailMCPError ("IMAP fetch error: " ++ message) "IMAP_ERROR")).
Proof.
  intros Hopen.
  rewrite getEmail_eq. cbn [outcome]. unfold getEmail_attempt. rewrite Hopen.
  split; [intros ->; reflexivity|].
  split; [|split; [|split]].
  - intros fm p rest -> Hp. rewrite getEmail_fold_first.
    cbn [getEmail_step]. rewrite Hp. reflexivity.
  - intros fm err rest -> Hp. rewrite getEmail_fold_first.
    cbn [getEmail_step]. rewrite Hp. reflexivity.
  - intros message rest -> Hnf _. rewrite getEmail_fold_first.
    cbn [getEmail_step]. rewrite Hnf. unfold NotFoundError.
    rewrite append_assoc. reflexivity.
  - intros message rest -> Hnf. rewrite getEmail_fold_first.
    cbn [getEmail_step]. rewrite Hnf. reflexivity.
Qed.

Lemma getEmail_first_completed_handler_decides_witness :
  openMailbox MoreScenarios.missing_inbox "INBOX" = None
  /\ outcome (getEmail (fun _ => MoreScenarios.missing_inbox) 42 None)
     = Threw (Gmail NotFoundClass "Email with UID 42 not found"
                    "NOT_FOUND_ERROR" (Some 404) false)
  /\ outcome (getEmail (fun _ => MoreScenarios.mute_inbox) 42 None) = NeverReturns
  /\ outcome (getEmail (fun _ => MoreScenarios.interrupted_inbox) 42 None)
     = Threw (GmailMCPError "IMAP fetch error: Connection lost" "IMAP_ERROR").
Proof.
  split; [reflexivity|]. split; [|split].
  - apply (proj1 (proj2 (proj2 (proj2 (getEmail_first_completed_handler_decides
                                         (fun _ => MoreScenarios.missing_inbox) 42 None
                                         eq_refl))))
                 "UID 42 not found" [] eq_refl eq_refl).
    lia.
  - apply (proj1 (getEmail_first_completed_handler_decides
                    (fun _ => MoreScenarios.mute_inbox) 42 None eq_refl) eq_refl).
  - apply (proj2 (proj2 (proj2 (proj2 (getEmail_first_completed_handler_decides
                                         (fun _ => MoreScenarios.interrupted_inbox)
                                         42 None eq_refl))))
                 "Connection lost" [MessageEnd (Scenarios.fetched 42 [])]
                 eq_refl eq_refl).
Defined.

(** ** What [parseEmail] stores *)

(** X7: a message built by [parseEmail] never holds an empty placeholder
    where the source normalizes: its plain-text and HTML bodies are absent
    rather than empty, its attachment list is absent rather than empty,
    and every attachment it lists has a file name and a content type that
    are not empty (the defaults "unnamed" and "application/octet-stream"
    fill the gaps), one per attachment of the parsed mail. *)
Theorem parseEmail_no_empty_placeholder parsed0 uid0 flags0 :
  let m := parseEmail parsed0 uid0 flags0 in
  body_text m <> Some ""
  /\ body_html m <> Some ""
  /\ attachments m <> Some []
  /\ (forall l, attachments m = Some l ->
                exists atts, p_attachments parsed0 = Some atts
                             /\ List.length l = List.length atts
                             /\ Forall (fun a => filename a <> ""
                                                 /\ contentType a <> "") l).
Proof.
  cbn zeta. unfold parseEmail. cbn [body_text body_html attachments].
  assert (Hor : forall x, or_undefined x <> Some "").
  { intros [[|c s]|]; discriminate. }
  assert (Hdef : forall x d, d <> "" -> or_default x d <> "").
  { intros [[|c s]|] d Hd; cbn; trivial; discriminate. }
  split; [apply Hor|]. split; [apply Hor|].
  destruct (p_attachments parsed0) as [[|a atts]|]; cbn [option_map map].
  - split; [discriminate|]. intros l H. discriminate H.
  - split; [discriminate|]. intros l H. injection H as <-.
    exists (a :: atts). split; [reflexivity|]. split.
    + cbn [List.length]. rewrite length_map. reflexivity.
    + change (parseAttachment a :: map parseAttachment atts)
        with (map parseAttachment (a :: atts)).
      apply Forall_forall. intros x Hx. apply in_map_iff in Hx.
      destruct Hx as (att & <- & _). unfold parseAttachment.
      cbn [filename contentType]. split; apply Hdef; discriminate.
  - split; [discriminate|]. intros l H. discriminate H.
Qed.

(** ** Where the results of [listEmails] come from *)

Lemma kept_one_origin fm m :
  In m (kept_one fm) ->
  exists attrs p,
    attributes fm = Some attrs /\ parsed fm = inl p
    /\ m = parseEmail p (attrs_uid attrs)
                      (match attrs_flags attrs with Some f => f | None => [] end).
Proof.
  unfold kept_one.
  destruct (attributes fm) as [attrs|]; [|intros []].
  destruct (parsed fm) as [p|err]; [|intros []].
  intros [<- | []]. exists attrs, p. repeat split.
Qed.

(** X8: [listEmails] returns only messages that the fetch reported: every
    message of the result is [parseEmail] applied to the parsed bytes, the
    UID and the flags of a message the fetch delivered with its
    attributes; it carries that UID and those flags. *)
Theorem listEmails_returns_fetched_messages store options msgs m :
  outcome (listEmails store options) = Returned msgs ->
  In m msgs ->
  exists uids fm attrs p,
    In (MessageEnd fm) (fetch (store 0) uids)
    /\ attributes fm = Some attrs
    /\ parsed fm = inl p
    /\ m = parseEmail p (attrs_uid attrs)
                      (match attrs_flags attrs with Some f => f | None => [] end)
    /\ uid m = attrs_uid attrs
    /\ flags m = match attrs_flags attrs with Some f => f | None => [] end.
Proof.
  rewrite ImapFacts.listEmails_eq. cbn [outcome]. unfold listEmails_attempt.
  destruct (openMailbox (store 0) (get_mailbox (mailbox options))); [discriminate|].
  destruct (search (store 0) (get_searchCriteria options)) as [msg|[[|r results]|]];
    try discriminate;
    try (cbn; intros H; injection H as <-; intros []).
  destruct (selected_uids (r :: results) (get_offset options) (get_limit options))
    as [|u us] eqn:Eu; [cbn; intros H; injection H as <-; intros []|].
  cbn [fst].
  destruct (observe _) as [v| |] eqn:Eobs; try discriminate.
  intros H Hin. injection H as <-. rename Eobs into H.
  pose proof (ImapFacts.run_fetch_keeps
                (fun m0 => exists fm, In (MessageEnd fm) (fetch (store 0) (u :: us))
                                      /\ In m0 (kept_one fm))
                _ _ _
                (fun fm Hfm =>
                   proj2 (Forall_forall _ (kept_one fm))
                         (fun m0 Hm0 => ex_intro _ fm (conj Hfm Hm0)))
                H) as Hall.
  destruct (proj1 (Forall_forall _ _) Hall m Hin) as (fm & Hfm & Hk).
  destruct (kept_one_origin fm m Hk) as (attrs & p & Ha & Hp & Hm).
  exists (u :: us), fm, attrs, p.
  repeat split; trivial; rewrite Hm; reflexivity.
Qed.

Lemma listEmails_returns_fetched_messages_witness :
  exists msgs m,
    outcome (listEmails (fun _ => Scenarios.inbox) Scenarios.second_page) = Returned msgs
    /\ In m msgs
    /\ uid m = 4
    /\ exists uids fm attrs p,
        In (MessageEnd fm) (fetch Scenarios.inbox uids)
        /\ attributes fm = Some attrs
        /\ parsed fm = inl p
        /\ m = parseEmail p (attrs_uid attrs)
                          (match attrs_flags attrs with Some f => f | None => [] end)
        /\ uid m = attrs_uid attrs
        /\ flags m = match attrs_flags attrs with Some f => f | None => [] end.
Proof.
  eexists. eexists.
  split; [reflexivity|]. split; [left; reflexivity|]. split; [reflexivity|].
  apply (listEmails_returns_fetched_messages
           (fun _ => Scenarios.inbox) Scenarios.second_page _ _ eq_refl).
  left. reflexivity.
Defined.

(** X10: [markAsRead] sends at most one command to the store, for the
    whole batch of UIDs and with the seen marker as its only flag; it
    sends none when the mailbox cannot be opened; it succeeds exactly when
    the mailbox opens and the store accepts the command, and fails with
    the IMAP_ERROR "Failed to mark as read: ..." when the store refuses
    it. *)
Theorem markAsRead_one_command store addFlags uids mailbox0 :
  (forall e,
      openMailbox (store 0) (get_mailbox mailbox0) = Some e ->
      outcome (markAsRead store addFlags uids mailbox0) = Threw e
      /\ markAsRead_commands store addFlags uids mailbox0 = [])
  /\ (openMailbox (store 0) (get_mailbox mailbox0) = None ->
      markAsRead_commands store addFlags uids mailbox0 = [(uids, "\Seen")]
      /\ (addFlags 0 uids "\Seen" = None ->
          outcome (markAsRead store addFlags uids mailbox0) = Returned tt)
      /\ (forall message,
             addFlags 0 uids "\Seen" = Some message ->
             outcome (markAsRead store addFlags uids mailbox0)
             = Threw (GmailMCPError ("Failed to mark as read: " ++ message)
                                    "IMAP_ERROR")))
  /\ (outcome (markAsRead store addFlags uids mailbox0) = Returned tt
      <-> openMailbox (store 0) (get_mailbox mailbox0) = None
          /\ addFlags 0 uids "\Seen" = None).
Proof.
  unfold markAsRead_commands. rewrite markAsRead_eq.
  cbn [outcome calls seq flat_map]. rewrite app_nil_r.
  change (Z.of_nat 0) with 0.
  unfold markAsRead_attempt. change Seen with "\Seen".
  destruct (openMailbox (store 0) (get_mailbox mailbox0)) as [e0|].
  - split; [|split].
    + intros e H. injection H as <-. split; reflexivity.
    + discriminate.
    + cbn. split; [discriminate | intros [H _]; discriminate H].
  - split; [discriminate|]. split.
    + intros _. destruct (addFlags 0 uids "\Seen") as [msg|]; cbn.
      * split; [reflexivity|]. split; [discriminate|].
        intros message H. injection H as <-. reflexivity.
      * split; [reflexivity|]. split; [reflexivity | discriminate].
    + destruct (addFlags 0 uids "\Seen") as [msg|]; cbn.
      * split; [discriminate | intros [_ H]; discriminate H].
      * split; [intros _; split; reflexivity | reflexivity].
Qed.

Lemma markAsRead_one_command_witness :
  outcome (markAsRead (fun _ => Scenarios.inbox) (fun _ => MoreScenarios.flags_accepted)
                      [1; 2] None) = Returned tt
  /\ markAsRead_commands (fun _ => Scenarios.inbox)
                         (fun _ => MoreScenarios.flags_accepted) [1; 2] None
     = [([1; 2], "\Seen")].
Proof.
  destruct (markAsRead_one_command (fun _ => Scenarios.inbox)
              (fun _ => MoreScenarios.flags_accepted) [1; 2] None)
    as (_ & H & _).
  destruct (H eq_refl) as (Hc & Hok & _).
  split; [apply Hok; reflexivity | exact Hc].
Defined.

(** ** The edges of the window *)

Lemma selected_uids_beyond results offset limit :
  Z.of_nat (List.length results) <= offset ->
  selected_uids results offset limit = [].
Proof.
  intros Hge. unfold selected_uids, slice, reverse.
  rewrite length_rev.
  replace (offset <? 0) with false by (symmetry; apply Z.ltb_ge; lia).
  rewrite (Z.min_r offset) by lia.
  rewrite skipn_all2 by (rewrite length_rev; lia).
  apply firstn_nil.
Qed.

Lemma selected_uids_no_limit results offset :
  0 <= offset -> selected_uids results offset 0 = [].
Proof.
  intros Hge. unfold selected_uids, slice, reverse.
  replace (offset <? 0) with false by (symmetry; apply Z.ltb_ge; lia).
  rewrite Z.add_0_r.
  replace (offset <? 0) with false by (symmetry; apply Z.ltb_ge; lia).
  rewrite Z.sub_diag. reflexivity.
Qed.

(** X22: with an offset at or beyond the number of matches, or with a
    limit of 0 (and an offset that is not negative), [listEmails] returns
    the empty sequence without consulting the fetch and writes nothing to
    the console. *)
Theorem listEmails_empty_window store options results :
  openMailbox (store 0) (get_mailbox (mailbox options)) = None ->
  search (store 0) (get_searchCriteria options) = SearchResults (Some results) ->
  Z.of_nat (List.length results) <= get_offset options
  \/ (0 <= get_offset options /\ get_limit options = 0) ->
  outcome (listEmails store options) = Returned []
  /\ listEmails_console store options = [].
Proof.
  intros Hopen Hsearch Hedge.
  rewrite ImapFacts.listEmails_console_eq, ImapFacts.listEmails_eq.
  rewrite (ImapFacts.listEmails_attempt_eq _ _ (Some results) Hopen Hsearch).
  assert (Hnil : selected_uids results (get_offset options) (get_limit options) = []).
  { destruct Hedge as [Hge | [Hge ->]].
    - apply selected_uids_beyond. exact Hge.
    - apply selected_uids_no_limit. exact Hge. }
  destruct results as [|r rs]; [split; reflexivity|].
  cbn zeta. rewrite Hnil. split; reflexivity.
Qed.

Lemma listEmails_empty_window_witness :
  outcome (listEmails (fun _ => Scenarios.lossy_inbox)
                      (mkListOptions (Some 10) (Some 5) None None)) = Returned []
  /\ listEmails_console (fun _ => Scenarios.lossy_inbox)
                        (mkListOptions (Some 10) (Some 5) None None) = [].
Proof.
  apply (listEmails_empty_window (fun _ => Scenarios.lossy_inbox)
           (mkListOptions (Some 10) (Some 5) None None) [1; 2; 3; 4; 5]
           eq_refl eq_refl).
  left. cbn. lia.
Defined.

(** X23: a negative offset is handed to [slice] as it is and counts from
    the end of the reversed match order.  With [N] matches, an offset [O]
    with [-N <= O < 0] and a limit [L >= 0]: when [L < -O] the window
    holds the [L] UIDs that start [-O] places before the end; when
    [-O <= L <= N] the end of the slice wraps to the front and the
    window is empty. *)
Theorem selected_uids_negative_offset results offset limit :
  - Z.of_nat (List.length results) <= offset ->
  offset < 0 ->
  0 <= limit ->
  (limit < - offset ->
   selected_uids results offset limit
   = firstn (Z.to_nat limit)
            (skipn (Z.to_nat (Z.of_nat (List.length results) + offset)) (rev results)))
  /\ (- offset <= limit ->
      limit <= Z.of_nat (List.length results) ->
      selected_uids results offset limit = []).
Proof.
  intros Hlow Hneg Hlimit. unfold selected_uids, slice, reverse.
  rewrite length_rev.
  replace (offset <? 0) with true by (symmetry; apply Z.ltb_lt; lia).
  rewrite (Z.max_l (Z.of_nat (List.length results) + offset) 0) by lia.
  split.
  - intros Hshort.
    replace (offset + limit <? 0) with true by (symmetry; apply Z.ltb_lt; lia).
    rewrite Z.max_l by lia.
    do 2 f_equal. lia.
  - intros Hlong Hbound.
    replace (offset + limit <? 0) with false by (symmetry; apply Z.ltb_ge; lia).
    rewrite Z.min_l by lia.
    replace (Z.to_nat (offset + limit - (Z.of_nat (List.length results) + offset)))
      with O by lia.
    reflexivity.
Qed.

Lemma selected_uids_negative_offset_witness :
  selected_uids [1; 2; 3; 4; 5] (-2) 1 = [2]
  /\ selected_uids [1; 2; 3; 4; 5] (-2) 2 = [].
Proof.
  assert (H1 : - Z.of_nat (List.length [1; 2; 3; 4; 5]) <= -2) by (cbn; lia).
  assert (H2 : -2 < 0) by lia.
  split.
  - apply (proj1 (selected_uids_negative_offset [1; 2; 3; 4; 5] (-2) 1 H1 H2
                    ltac:(lia))).
    lia.
  - apply (proj2 (selected_uids_negative_offset [1; 2; 3; 4; 5] (-2) 2 H1 H2
                    ltac:(lia))); cbn; lia.
Defined.

End ImapMore.

(* ================================================================== *)
(** * Further properties of the transmission client *)
(* ================================================================== *)

Module SmtpMore.
Import Js Errors Smtp.

Lemma submitted_means_valid transport user options mail :
  In mail (submitted (sendEmail transport user options)) ->
  truthy_field (to options) = true
  /\ truthy_opt (subject options) = true
  /\ truthy_opt (body options) || truthy_opt (htmlBody options) = true.
Proof.
  unfold sendEmail.
  destruct (truthy_field (to options)); cbn [negb orb]; [|intros []].
  destruct (truthy_opt (subject options)); cbn [negb orb]; [|intros []].
  destruct (truthy_opt (body options)); cbn [negb andb orb]; [intros _; repeat split|].
  destruct (truthy_opt (htmlBody options)); cbn [negb]; [intros _; repeat split | intros []].
Qed.

(** X11: a request that passes validation is handed to the submission
    channel exactly once, whatever the channel answers: when the channel
    accepts it, [sendEmail] returns the identifier the channel reports, or
    the empty string when it reports none; when the channel fails,
    [sendEmail] throws the SMTP_ERROR "Failed to send email: ..." and does
    not submit the message again. *)
Theorem sendEmail_submits_once transport user options :
  truthy_field (to options) = true ->
  truthy_opt (subject options) = true ->
  truthy_opt (body options) || truthy_opt (htmlBody options) = true ->
  let m := mailOptions user options in
  submitted (sendEmail transport user options) = [m]
  /\ (forall messageId,
         transport 0 m = Sent messageId ->
         result (sendEmail transport user options)
         = Returned (or_default messageId ""))
  /\ (forall message,
         transport 0 m = SendFailed message ->
         result (sendEmail transport user options)
         = Threw (GmailMCPError
                    ("Failed to send email: "
                     ++ match message with Some s => s | None => "Unknown error" end)
                    "SMTP_ERROR")).
Proof.
  intros Hto Hsubject Hbody m.
  rewrite (SmtpFacts.sendEmail_valid transport user options Hto Hsubject Hbody).
  fold m. cbn [submitted result]. unfold send_attempt.
  split; [reflexivity|]. split.
  - intros messageId ->. reflexivity.
  - intros message ->. reflexivity.
Qed.

Lemma sendEmail_submits_once_witness :
  submitted (sendEmail MoreScenarios.refusing "me@gmail.com" MoreScenarios.send_hi)
  = [mailOptions "me@gmail.com" MoreScenarios.send_hi]
  /\ result (sendEmail MoreScenarios.refusing "me@gmail.com" MoreScenarios.send_hi)
     = Threw (GmailMCPError "Failed to send email: Connection timeout" "SMTP_ERROR").
Proof.
  destruct (sendEmail_submits_once MoreScenarios.refusing "me@gmail.com"
              MoreScenarios.send_hi eq_refl eq_refl eq_refl) as (Hs & _ & Hf).
  split; [exact Hs|].
  apply (Hf (Some "Connection timeout")). reflexivity.
Defined.

(** X12: the recipient test of [sendEmail] does not look into an array: a
    request whose [to] is the empty array, with a subject and a body,
    passes validation and is submitted with no recipient at all. *)
Theorem sendEmail_accepts_empty_recipient_array transport user options :
  to options = Some (Many []) ->
  truthy_opt (subject options) = true ->
  truthy_opt (body options) || truthy_opt (htmlBody options) = true ->
  exists m,
    submitted (sendEmail transport user options) = [m]
    /\ mail_to m = [].
Proof.
  intros Hto Hsubject Hbody.
  exists (mailOptions user options). split.
  - rewrite (SmtpFacts.sendEmail_valid transport user options); trivial.
    rewrite Hto. reflexivity.
  - unfold mailOptions. cbn [mail_to]. rewrite Hto. reflexivity.
Qed.

Lemma sendEmail_accepts_empty_recipient_array_witness :
  exists m,
    submitted (sendEmail Scenarios.accepting "me@gmail.com" MoreScenarios.send_to_nobody)
    = [m]
    /\ mail_to m = [].
Proof.
  apply (sendEmail_accepts_empty_recipient_array
           Scenarios.accepting "me@gmail.com" MoreScenarios.send_to_nobody
           eq_refl eq_refl eq_refl).
Defined.

Lemma submitted_reply_shape transport user options original mail :
  In mail (submitted (replyEmail transport user options original)) ->
  submitted (replyEmail transport user options original) = [mail]
  /\ mail_from mail = user
  /\ (exists a, orig_from original = Some (Some a) /\ a <> "" /\ mail_to mail = [a])
  /\ mail_inReplyTo mail = orig_messageId original
  /\ mail_subject mail
     = Some (subject_of_reply (reply_subject options) (orig_subject original))
  /\ mail_text mail = reply_body options
  /\ mail_html mail = reply_htmlBody options
  /\ mail_replyTo mail = None
  /\ mail_attachments mail = None.
Proof.
  intros Hin.
  pose proof (SmtpFacts.submitted_by_replyEmail _ _ _ _ _ Hin) as Hm.
  assert (Hsend : replyEmail transport user options original
                  = sendEmail transport user (replyRequest options original)).
  { unfold replyEmail in *.
    destruct (negb (truthy_opt (reply_body options))
              && negb (truthy_opt (reply_htmlBody options)));
      [destruct Hin | reflexivity]. }
  rewrite Hsend in *.
  destruct (submitted_means_valid _ _ _ _ Hin) as (Hto & Hsubject & Hbody).
  rewrite (SmtpFacts.sendEmail_valid _ _ _ Hto Hsubject Hbody). cbn [submitted].
  subst mail.
  split; [reflexivity|]. split; [reflexivity|]. split.
  - cbn in Hto. exists (destination_of_reply original).
    cbn [mail_to mailOptions replyRequest to as_array].
    unfold destination_of_reply in *.
    destruct (orig_from original) as [[a|]|]; try discriminate Hto.
    destruct a as [|c a]; [discriminate Hto|].
    cbn. repeat split. discriminate.
  - repeat split.
Qed.

(** X13: every message a reply submits is submitted once, from the
    account of the client, to the sender of the original message alone
    (an address that is not empty), in reply to the identifier of the
    original, with the subject [replyEmail] computes and the bodies the
    caller gave, and with neither a reply-to address nor an
    attachment. *)
Theorem reply_message_shape transport user options original mail :
  In mail (submitted (replyEmail transport user options original)) ->
  submitted (replyEmail transport user options original) = [mail]
  /\ mail_from mail = user
  /\ (exists a, orig_from original = Some (Some a) /\ a <> "" /\ mail_to mail = [a])
  /\ mail_inReplyTo mail = orig_messageId original
  /\ mail_subject mail
     = Some (subject_of_reply (reply_subject options) (orig_subject original))
  /\ mail_text mail = reply_body options
  /\ mail_html mail = reply_htmlBody options
  /\ mail_replyTo mail = None
  /\ mail_attachments mail = None.
Proof. apply submitted_reply_shape. Qed.

Lemma reply_message_shape_witness :
  exists mail,
    submitted (replyEmail Scenarios.accepting "me@gmail.com"
                          Scenarios.reply_hello Scenarios.original_ab) = [mail]
    /\ mail_to mail = ["alice@example.com"]
    /\ mail_inReplyTo mail = Some "<b>"
    /\ mail_replyTo mail = None.
Proof.
  exists (mailOptions "me@gmail.com"
            (replyRequest Scenarios.reply_hello Scenarios.original_ab)).
  destruct (reply_message_shape Scenarios.accepting "me@gmail.com"
              Scenarios.reply_hello Scenarios.original_ab
              (mailOptions "me@gmail.com"
                 (replyRequest Scenarios.reply_hello Scenarios.original_ab))
              (or_introl eq_refl))
    as (H1 & _ & _ & H4 & _ & _ & _ & H8 & _).
  split; [exact H1|]. split; [reflexivity|]. split; [exact H4 | exact H8].
Defined.

(** X14: the subject rule of [replyEmail] is idempotent: computing the
    subject of a reply from a subject that the rule produced, for the same
    original message, gives that subject again, so that "Re: " never
    piles up. *)
Theorem subject_of_reply_idempotent caller original :
  subject_of_reply (subject_of_reply caller original) original
  = subject_of_reply caller original.
Proof.
  destruct (startsWith caller "Re:" || startsWith_opt original "Re:") eqn:E.
  - rewrite (SmtpFacts.subject_of_reply_kept caller original E).
    apply SmtpFacts.subject_of_reply_kept. exact E.
  - rewrite (SmtpFacts.subject_of_reply_prefixed caller original E).
    apply SmtpFacts.subject_of_reply_kept.
    apply orb_true_iff. left. unfold startsWith.
    apply (SmtpFacts.prefix_trans "Re:" "Re: " _ eq_refl).
    apply SmtpFacts.prefix_app.
Qed.

End SmtpMore.

(* ================================================================== *)
(** * Properties of the reply tool *)
(* ================================================================== *)

Module ToolsFacts.
Import Js Errors Tools.

(** The subject the tool computes when the caller gives none starts with
    "Re:", and [replyEmail] keeps it. *)
Lemma default_subject_kept parsed_subject original_subject :
  truthy_opt parsed_subject = false ->
  startsWith (replySubject parsed_subject original_subject) "Re:" = true
  /\ Smtp.subject_of_reply (replySubject parsed_subject original_subject)
                           original_subject
     = replySubject parsed_subject original_subject.
Proof.
  intros Hp.
  assert (Hstart : startsWith (replySubject parsed_subject original_subject) "Re:"
                   = true).
  { unfold replySubject.
    assert (Hfb : startsWith
                    match original_subject with
                    | Some o => if truthy o
                                then (if startsWith o "Re:" then o else "Re: " ++ o)
                                else "Re: (no subject)"
                    | None => "Re: (no subject)"
                    end "Re:" = true).
    { destruct original_subject as [o|]; [|reflexivity].
      destruct (truthy o); [|reflexivity].
      destruct (startsWith o "Re:") eqn:Eo; [exact Eo|].
      unfold startsWith.
      apply (SmtpFacts.prefix_trans "Re:" "Re: " _ eq_refl).
      apply SmtpFacts.prefix_app. }
    destruct parsed_subject as [s|]; [|exact Hfb].
    cbn in Hp. rewrite Hp. exact Hfb. }
  split; [exact Hstart|].
  apply SmtpFacts.subject_of_reply_kept. rewrite Hstart. reflexivity.
Qed.

(** X15: the reply tool cannot answer a message whose sender it read
    without an address.  When the caller gave a body, [getEmail] returned
    the original and the original has no sender, or a sender whose
    [address] is [undefined] or empty, [handleReplyEmail] throws the
    VALIDATION_ERROR of [sendEmail] and hands nothing to the submission
    channel, whatever the channel would answer.  The sender [getEmail]
    stores is what [parseAddress] reads off the parsed [from]: the
    [address] property of the object, or of the first element of an
    array. *)
Theorem handleReplyEmail_without_sender_address
        store transport user args originalEmail :
  truthy_opt (arg_body args) = true \/ truthy_opt (arg_htmlBody args) = true ->
  outcome (Imap.getEmail store (arg_originalUid args) (arg_mailbox args))
  = Returned originalEmail ->
  Imap.from originalEmail = None
  \/ (exists a, Imap.from originalEmail = Some a
                /\ truthy_opt (Imap.address a) = false) ->
  reported (handleReplyEmail store transport user args)
  = Threw (GmailMCPError "to, subject, and body (or htmlBody) are required"
                         "VALIDATION_ERROR")
  /\ handed (handleReplyEmail store transport user args) = [].
Proof.
  intros Hbody Hget Hfrom. unfold handleReplyEmail.
  assert (Hb : negb (truthy_opt (arg_body args))
               && negb (truthy_opt (arg_htmlBody args)) = false).
  { destruct Hbody as [-> | ->]; [reflexivity | apply andb_false_r]. }
  rewrite Hb, Hget. cbn [reported handed].
  assert (D : Smtp.destination_of_reply (original_of originalEmail) = "").
  { unfold Smtp.destination_of_reply, original_of. cbn [Smtp.orig_from].
    destruct Hfrom as [-> | (a & -> & Ha)]; [reflexivity|].
    cbn [option_map]. destruct (Imap.address a) as [[|c x]|];
      [reflexivity | discriminate Ha | reflexivity]. }
  assert (S : Smtp.sendEmail transport user
                (Smtp.replyRequest (reply_options args originalEmail)
                                   (original_of originalEmail))
              = Smtp.mkSending
                  (Threw (GmailMCPError
                            "to, subject, and body (or htmlBody) are required"
                            "VALIDATION_ERROR"))
                  []).
  { apply SmtpFacts.sendEmail_invalid. left. cbn. rewrite D. reflexivity. }
  unfold Smtp.replyEmail.
  cbn [Smtp.reply_body Smtp.reply_htmlBody reply_options].
  rewrite Hb, S. split; reflexivity.
Qed.

Lemma handleReplyEmail_without_sender_address_witness :
  (exists originalEmail,
      outcome (Imap.getEmail (fun _ => MoreScenarios.grouped_sender_inbox) 4 None)
      = Returned originalEmail
      /\ Imap.from originalEmail = Some (Imap.mkAddress None None))
  /\ reported (handleReplyEmail (fun _ => MoreScenarios.grouped_sender_inbox)
                                Scenarios.accepting "me@gmail.com"
                                MoreScenarios.reply_args)
     = Threw (GmailMCPError "to, subject, and body (or htmlBody) are required"
                            "VALIDATION_ERROR")
  /\ handed (handleReplyEmail (fun _ => MoreScenarios.grouped_sender_inbox)
                              Scenarios.accepting "me@gmail.com"
                              MoreScenarios.reply_args) = [].
Proof.
  split; [eexists; split; reflexivity|].
  apply (handleReplyEmail_without_sender_address
           (fun _ => MoreScenarios.grouped_sender_inbox) Scenarios.accepting
           "me@gmail.com" MoreScenarios.reply_args
           (Imap.parseEmail MoreScenarios.grouped_sender_mail 4 [])
           (or_introl eq_refl) eq_refl).
  right. exists (Imap.mkAddress None None). split; reflexivity.
Defined.

End ToolsFacts.

(* ================================================================== *)
(** * Further properties of the scheduler *)
(* ================================================================== *)

Module SchedulerMore.
Import Js Errors Scheduler.

Lemma split_colon_plain s :
  ~ In ":"%char (list_ascii_of_string s) -> split_colon s = [s].
Proof.
  induction s as [|c s IH]; intros Hno; [reflexivity|].
  cbn [split_colon].
  destruct (Ascii.eqb_spec c ":") as [->|Hc].
  - exfalso. apply Hno. left. reflexivity.
  - rewrite IH; [reflexivity|].
    intros Hin. apply Hno. right. exact Hin.
Qed.

Lemma split_colon_first a rest :
  ~ In ":"%char (list_ascii_of_string a) ->
  split_colon (a ++ ":" ++ rest) = a :: split_colon rest.
Proof.
  induction a as [|c a IH]; intros Hno.
  - reflexivity.
  - cbn [append split_colon].
    destruct (Ascii.eqb_spec c ":") as [->|Hc].
    + exfalso. apply Hno. left. reflexivity.
    + cbn [append] in IH. rewrite IH; [reflexivity|].
      intros Hin. apply Hno. right. exact Hin.
Qed.

Section Entries.

Variable Number : string -> JsNumber.
Variable ToString : JsNumber -> string.
Variable trim : string -> string.
Variable hostTimeZone : option string.
Variable cron_rejects : string -> string -> option JsError.

Local Abbreviation timeToCron := (timeToCronExpression Number ToString).
Local Abbreviation setup := (setupScheduler Number ToString trim hostTimeZone cron_rejects).
Local Abbreviation tasks_of := (entry_tasks Number ToString trim cron_rejects).
Local Abbreviation line_of := (entry_line Number ToString trim cron_rejects).

(** X16: [timeToCronExpression] returns an expression exactly for the
    entries whose hour is a number within 0-23 and whose minute is a
    number within 0-59, and the expression is then "minute hour * * *";
    it never builds an expression from [NaN], from an infinity or from a
    number out of range. *)
Theorem timeToCronExpression_sound time expression :
  timeToCronExpression Number ToString time = inl expression
  <-> in_range Number time /\ expression = daily_at Number ToString time.
Proof.
  split.
  - unfold timeToCronExpression.
    destruct (isNaN (hours_of Number time) || isNaN (minutes_of Number time)
              || lt_const (hours_of Number time) 0
              || gt_const (hours_of Number time) 23
              || lt_const (minutes_of Number time) 0
              || gt_const (minutes_of Number time) 59) eqn:E; [discriminate|].
    intros H. injection H as <-.
    apply orb_false_iff in E. destruct E as [E M59].
    apply orb_false_iff in E. destruct E as [E M0].
    apply orb_false_iff in E. destruct E as [E H23].
    apply orb_false_iff in E. destruct E as [E H0].
    apply orb_false_iff in E. destruct E as [Hnan Mnan].
    split; [|reflexivity]. unfold in_range.
    destruct (hours_of Number time) as [|hneg|h];
      [discriminate Hnan | destruct hneg; discriminate |].
    destruct (minutes_of Number time) as [|mneg|m];
      [discriminate Mnan | destruct mneg; discriminate |].
    exists h, m. cbn [lt_const gt_const] in *.
    repeat split; trivial; apply Qle_bool_iff; apply negb_false_iff; assumption.
  - intros [Hrange ->]. apply SchedulerFacts.timeToCron_in_range. exact Hrange.
Qed.

(** X17: an entry without a colon is always refused, whatever number its
    text converts to: the missing minute is [undefined]. *)
Theorem timeToCronExpression_needs_colon time :
  ~ In ":"%char (list_ascii_of_string time) ->
  timeToCronExpression Number ToString time = inr (Other (invalid_time_message time)).
Proof.
  intros Hno. unfold timeToCronExpression, minutes_of.
  rewrite (split_colon_plain time Hno). cbn [isNaN].
  rewrite orb_true_r. reflexivity.
Qed.

(** X18: only the first two fields of an entry count: what follows a
    second colon is ignored, so that "HH:mm:ss" yields the expression of
    "HH:mm" whenever that one is accepted. *)
Theorem timeToCronExpression_ignores_extra_fields hh mm extra expression :
  ~ In ":"%char (list_ascii_of_string hh) ->
  ~ In ":"%char (list_ascii_of_string mm) ->
  timeToCronExpression Number ToString (hh ++ ":" ++ mm ++ ":" ++ extra) = inl expression
  <-> timeToCronExpression Number ToString (hh ++ ":" ++ mm) = inl expression.
Proof.
  intros Hh Hm.
  assert (H1 : hours_of Number (hh ++ ":" ++ mm ++ ":" ++ extra) = Number hh
               /\ minutes_of Number (hh ++ ":" ++ mm ++ ":" ++ extra) = Number mm).
  { unfold hours_of, minutes_of.
    rewrite (split_colon_first hh _ Hh), (split_colon_first mm _ Hm).
    split; reflexivity. }
  assert (H2 : hours_of Number (hh ++ ":" ++ mm) = Number hh
               /\ minutes_of Number (hh ++ ":" ++ mm) = Number mm).
  { unfold hours_of, minutes_of.
    rewrite (split_colon_first hh _ Hh), (split_colon_plain mm Hm).
    split; reflexivity. }
  destruct H1 as [Hh1 Hm1], H2 as [Hh2 Hm2].
  unfold timeToCronExpression. rewrite Hh1, Hm1, Hh2, Hm2.
  destruct (isNaN (Number hh) || isNaN (Number mm) || lt_const (Number hh) 0
            || gt_const (Number hh) 23 || lt_const (Number mm) 0
            || gt_const (Number mm) 59).
  - split; discriminate.
  - reflexivity.
Qed.

Lemma entry_accounted tz time :
  (List.length (tasks_of tz time)
   + (if match line_of tz time with RegistrationFailed _ _ => true | _ => false end
      then 1 else 0) = 1)%nat
  /\ Forall (fun t => task_timezone t = tz) (tasks_of tz time).
Proof.
  unfold entry_tasks, entry_line.
  destruct (timeToCron (trim time)) as [expression|error].
  - destruct (cron_rejects expression tz); cbn; split; trivial; repeat constructor.
  - cbn. split; trivial.
Qed.

(** X19: an enabled configuration with entries accounts for each of
    them: the console gets one line per entry, every entry either
    registers one task or is reported as a failed registration, and every
    registered task carries the resolved time zone (the configured one,
    else that of the host, else "UTC"); a disabled configuration
    registers nothing. *)
Theorem setupScheduler_accounts_for_every_entry config :
  (enabled config = false -> fst (setup config) = [])
  /\ (enabled config = true ->
      times config <> [] ->
      List.length (snd (setup config)) = List.length (times config)
      /\ (List.length (fst (setup config))
          + List.length (filter (fun line => match line with
                                             | RegistrationFailed _ _ => true
                                             | _ => false
                                             end) (snd (setup config)))
          = List.length (times config))%nat
      /\ Forall (fun t => task_timezone t
                          = or_default (timezone config) (or_default hostTimeZone "UTC"))
                (fst (setup config))).
Proof.
  split.
  { intros Hd. unfold setupScheduler. rewrite Hd. reflexivity. }
  intros He Hne.
  rewrite (SchedulerFacts.setup_enabled Number ToString trim hostTimeZone cron_rejects
                                        config He).
  destruct (times config) as [|t ts] eqn:Et; [contradiction|].
  cbn [fst snd]. fold (resolve_timezone hostTimeZone config).
  set (tz := resolve_timezone hostTimeZone config).
  generalize (t :: ts). intros l.
  split; [apply length_map|].
  induction l as [|time l [IHlen IHtz]]; [split; [reflexivity | constructor]|].
  destruct (entry_accounted tz time) as [Hone Htz].
  cbn [flat_map map filter List.length]. rewrite length_app. split.
  - destruct (line_of tz time); cbn [List.length] in *; lia.
  - apply Forall_app. split; assumption.
Qed.

End Entries.

Lemma timeToCronExpression_needs_colon_witness :
  timeToCronExpression Plain.Number Plain.ToString "1500"
  = inr (Other "Invalid time format: 1500. Expected format: HH:mm").
Proof.
  apply (timeToCronExpression_needs_colon Plain.Number Plain.ToString "1500").
  cbn. intros H. repeat (destruct H as [H|H]; [discriminate H|]). exact H.
Defined.

Lemma timeToCronExpression_ignores_extra_fields_witness :
  timeToCronExpression Plain.Number Plain.ToString "15:30:45" = inl "30 15 * * *".
Proof.
  apply (proj2 (timeToCronExpression_ignores_extra_fields
                  Plain.Number Plain.ToString "15" "30" "45" "30 15 * * *"
                  (fun H => match H with
                            | or_introl E => ltac:(discriminate E)
                            | or_intror (or_introl E) => ltac:(discriminate E)
                            | or_intror (or_intror F) => F
                            end)
                  (fun H => match H with
                            | or_introl E => ltac:(discriminate E)
                            | or_intror (or_introl E) => ltac:(discriminate E)
                            | or_intror (or_intror F) => F
                            end))).
  reflexivity.
Defined.

Lemma setupScheduler_accounts_for_every_entry_witness :
  List.length (snd (setupScheduler Plain.Number Plain.ToString Plain.trim None
                                   Plain.cron_rejects Scenarios.schedule_25_15)) = 2%nat
  /\ Forall (fun t => task_timezone t = "Europe/Berlin")
            (fst (setupScheduler Plain.Number Plain.ToString Plain.trim None
                                 Plain.cron_rejects Scenarios.schedule_25_15)).
Proof.
  destruct (proj2 (setupScheduler_accounts_for_every_entry
                     Plain.Number Plain.ToString Plain.trim None Plain.cron_rejects
                     Scenarios.schedule_25_15) eq_refl)
    as (Hlen & _ & Htz).
  - discriminate.
  - split; [exact Hlen | exact Htz].
Defined.

End SchedulerMore.

(* ================================================================== *)
(** * Properties of the formatters *)
(* ================================================================== *)

Module FormattersFacts.
Import Js Errors Imap Formatters.

Lemma join_snoc sep l x :
  l <> [] -> join sep (l ++ [x]) = join sep l ++ sep ++ x.
Proof.
  unfold join. induction l as [|a l IH]; intros Hne; [contradiction|].
  destruct l as [|b l]; [reflexivity|].
  change (String.concat sep ((a :: b :: l) ++ [x]))
    with (a ++ sep ++ String.concat sep ((b :: l) ++ [x])).
  change (String.concat sep (a :: b :: l))
    with (a ++ sep ++ String.concat sep (b :: l)).
  rewrite IH by discriminate.
  rewrite !ImapMore.append_assoc. reflexivity.
Qed.

Lemma substring_prefix n s :
  exists rest, s = substring 0 n s ++ rest.
Proof.
  revert s. induction n as [|n IH]; intros s.
  - exists s. destruct s; reflexivity.
  - destruct s as [|c s]; [exists ""; reflexivity|].
    destruct (IH s) as [rest Hrest].
    exists rest. cbn. rewrite <- Hrest. reflexivity.
Qed.

Lemma substring_length n s :
  String.length (substring 0 n s) = Nat.min n (String.length s).
Proof.
  revert s. induction n as [|n IH]; intros s.
  - destruct s; reflexivity.
  - destruct s as [|c s]; [reflexivity|]. cbn. rewrite IH. reflexivity.
Qed.

Lemma replace_newlines_length s :
  String.length (replace_newlines s) = String.length s.
Proof. induction s as [|c s IH]; cbn; [reflexivity | rewrite IH; reflexivity]. Qed.

Lemma replace_newlines_clean s :
  ~ In (ascii_of_nat 10) (list_ascii_of_string (replace_newlines s)).
Proof.
  induction s as [|c s IH]; cbn [replace_newlines list_ascii_of_string]; [intros []|].
  intros [H|H]; [|exact (IH H)].
  destruct (Ascii.eqb_spec c (ascii_of_nat 10)) as [->|Hc];
    [discriminate H | exact (Hc H)].
Qed.

Section Rendering.

Variable toISOString : Z -> string.

(** X20: the summary of a message with a plain-text body that is not
    empty ends with a blank line and "Preview: ", the preview and "...";
    the preview is the first 100 characters of the body (the whole body
    when it is shorter) and holds no line feed. *)
Theorem formatEmailSummary_preview email text :
  body_text email = Some text ->
  text <> "" ->
  (exists head,
      formatEmailSummary toISOString email
      = head ++ newline ++ newline ++ "Preview: " ++ preview_of text ++ "...")
  /\ String.length (preview_of text) = Nat.min 100 (String.length text)
  /\ ~ In (ascii_of_nat 10) (list_ascii_of_string (preview_of text)).
Proof.
  intros Hbody Hne. split; [|split].
  - unfold formatEmailSummary, summary_parts. rewrite Hbody.
    rewrite (SmtpFacts.truthy_true text Hne).
    cbn [List.concat].
    set (A := if truthy_opt (subject email) then _ else _).
    set (B := match from email with Some _ => _ | None => _ end).
    set (C := match to email with Some (_ :: _) => _ | _ => _ end).
    set (D := match date email with Some _ => _ | None => _ end).
    set (E := if unread email then _ else _).
    set (U := "UID: " ++ number_to_string (uid email)).
    set (P := newline ++ "Preview: " ++ preview_of text ++ "...").
    replace (A ++ B ++ C ++ D ++ E ++ [U] ++ [P] ++ [])%list
      with ((A ++ B ++ C ++ D ++ E ++ [U]) ++ [P])%list
      by (rewrite <- !app_assoc; reflexivity).
    rewrite join_snoc.
    + eexists. reflexivity.
    + rewrite !app_assoc. apply not_eq_sym, app_cons_not_nil.
  - unfold preview_of. rewrite replace_newlines_length. apply substring_length.
  - apply replace_newlines_clean.
Qed.

End Rendering.

Lemma formatEmailSummary_preview_witness :
  exists head,
    formatEmailSummary (fun _ => "2024-01-01T00:00:00.000Z")
      (parseEmail MoreScenarios.threaded_mail 4 [])
    = head ++ newline ++ newline ++ "Preview: See you." ++ "...".
Proof.
  refine (proj1 (formatEmailSummary_preview
                   (fun _ => "2024-01-01T00:00:00.000Z")
                   (parseEmail MoreScenarios.threaded_mail 4 [])
                   "See you." eq_refl _)).
  discriminate.
Defined.

(** ** Stripping the tags *)

Lemma has_gt_tag b c : has_gt (b ++ String ">"%char c) = true.
Proof.
  induction b as [|x b IH]; cbn [append has_gt]; [reflexivity|].
  rewrite IH. apply orb_true_r.
Qed.

Lemma strip_from_has_gt s :
  forall inside, has_gt (strip_from inside s) = true -> has_gt s = true.
Proof.
  induction s as [|x s IH]; intros inside; [destruct inside; discriminate|].
  cbn [strip_from has_gt].
  destruct inside.
  - destruct (Ascii.eqb x ">"); [reflexivity|]. cbn [orb]. apply IH.
  - destruct (Ascii.eqb x "<" && has_gt s) eqn:E.
    + intros _. apply andb_true_iff in E. destruct E as [_ ->]. apply orb_true_r.
    + cbn [has_gt]. destruct (Ascii.eqb x ">"); [reflexivity|]. cbn [orb]. apply IH.
Qed.

Lemma strip_from_no_tag s :
  forall inside a b c, strip_from inside s <> a ++ "<" ++ b ++ ">" ++ c.
Proof.
  induction s as [|x s IH]; intros inside a b c.
  - destruct inside; cbn; destruct a; discriminate.
  - cbn [strip_from]. destruct inside.
    + destruct (Ascii.eqb x ">"); apply IH.
    + destruct (Ascii.eqb x "<" && has_gt s) eqn:E; [apply IH|].
      destruct a as [|y a].
      * cbn [append]. intros H. injection H as Hx Hrest.
        subst x. cbn [andb] in E. change (Ascii.eqb "<" "<") with true in E.
        cbn [andb] in E.
        pose proof (has_gt_tag b c) as Hgt.
        rewrite <- Hrest in Hgt.
        apply strip_from_has_gt in Hgt. rewrite Hgt in E. discriminate E.
      * cbn [append]. intros H. injection H as _ Hrest.
        exact (IH false a b c Hrest).
Qed.

Lemma strip_from_plain s :
  ~ In "<"%char (list_ascii_of_string s) -> strip_from false s = s.
Proof.
  induction s as [|x s IH]; intros Hno; [reflexivity|].
  cbn [strip_from].
  destruct (Ascii.eqb_spec x "<") as [->|Hx].
  - exfalso. apply Hno. left. reflexivity.
  - cbn [andb]. rewrite IH; [reflexivity|].
    intros Hin. apply Hno. right. exact Hin.
Qed.


End FormattersFacts.
